(** * span: holdings, filters and the batch pipeline

    A shallow embedding of the Go sources of the span repository:

    - package [holdings] (OVID entitlements, moving-wall delays, datum
      encoding, the ISSN -> Holding index),
    - package [span] (filters and the ISIL tagger),
    - the command [span-import] (reader, workers and collector of the
      batched line-delimited JSON pipeline).

    Go strings are byte sequences; they are modelled by [string], whose
    characters are 8-bit [ascii] values.  Go's [int] and [time.Duration]
    are 64-bit two's complement integers; they are modelled by [Z] with
    the wrap-around written out ([wrap64]).  Go maps are [gmap]s. *)

From Stdlib Require Import ZArith Lia List Ascii String Bool Permutation.
From Stdlib Require Import DecimalString.
From stdpp Require Import base gmap strings list fin_maps.

Local Open Scope Z_scope.

(* ===================================================================== *)
(** * Bytes, strings and machine integers *)
(* ===================================================================== *)

Module GoString.

(** The numeric value of a byte. *)
Definition byte_val (c : ascii) : Z := Z.of_N (N_of_ascii c).

(** [\d] in Go's regexp syntax and the digit test of [strconv]: the
    ASCII digits only. *)
Definition is_digit (c : ascii) : bool :=
  (48 <=? byte_val c) && (byte_val c <=? 57).

Definition digit_val (c : ascii) : Z := byte_val c - 48.

Fixpoint all_digits (s : string) : bool :=
  match s with
  | EmptyString => true
  | String c s' => is_digit c && all_digits s'
  end.

(** Horner evaluation of a digit string, most significant digit first. *)
Fixpoint digits_val (acc : Z) (s : string) : Z :=
  match s with
  | EmptyString => acc
  | String c s' => digits_val (10 * acc + digit_val c) s'
  end.

(** The numeric value of a decimal string (0 for the empty string). *)
Definition num (s : string) : Z := digits_val 0 s.

Definition nonempty (s : string) : bool := negb (String.eqb s "").

Fixpoint zeros (n : nat) : string :=
  match n with
  | O => ""
  | S n' => String "0" (zeros n')
  end.

(** Go compares strings bytewise, in lexicographic order. *)
Definition str_lt (a b : string) : bool := String.ltb a b.

(** ** UTF-8 rune counting ([utf8.RuneCountInString])

    [fmt] measures the width of a string operand in runes.  The
    decoder's acceptance table is reproduced: [lead_info c] gives the
    encoded size announced by the leading byte [c] together with the
    range accepted for the second byte, or [None] for a byte that
    cannot start a multi-byte sequence. *)

Definition lead_info (c : Z) : option (nat * (Z * Z)) :=
  if (194 <=? c) && (c <=? 223) then Some (2%nat, (128, 191))
  else if c =? 224 then Some (3%nat, (160, 191))
  else if (225 <=? c) && (c <=? 236) then Some (3%nat, (128, 191))
  else if c =? 237 then Some (3%nat, (128, 159))
  else if (238 <=? c) && (c <=? 239) then Some (3%nat, (128, 191))
  else if c =? 240 then Some (4%nat, (144, 191))
  else if (241 <=? c) && (c <=? 243) then Some (4%nat, (128, 191))
  else if c =? 244 then Some (4%nat, (128, 143))
  else None.

Definition in_range (lo hi : Z) (c : ascii) : bool :=
  (lo <=? byte_val c) && (byte_val c <=? hi).

(** Number of bytes consumed by the rune that starts with byte [c] and
    is followed by [rest]; an ill-formed or truncated sequence consumes
    one byte. *)
Definition rune_size (c : ascii) (rest : string) : nat :=
  if byte_val c <? 128 then 1%nat
  else match lead_info (byte_val c) with
       | None => 1%nat
       | Some (size, (lo, hi)) =>
           if (String.length rest <? size - 1)%nat then 1%nat
           else match rest with
                | String c1 r1 =>
                    if negb (in_range lo hi c1) then 1%nat
                    else if (size =? 2)%nat then 2%nat
                    else match r1 with
                         | String c2 r2 =>
                             if negb (in_range 128 191 c2) then 1%nat
                             else if (size =? 3)%nat then 3%nat
                             else match r2 with
                                  | String c3 _ =>
                                      if negb (in_range 128 191 c3)
                                      then 1%nat else 4%nat
                                  | EmptyString => 1%nat
                                  end
                         | EmptyString => 1%nat
                         end
                | EmptyString => 1%nat
                end
       end.

(** [skip] is the number of bytes of the current rune still to pass. *)
Fixpoint rune_count_from (skip : nat) (s : string) : nat :=
  match s with
  | EmptyString => O
  | String c s' =>
      match skip with
      | S k => rune_count_from k s'
      | O => S (rune_count_from (rune_size c s' - 1) s')
      end
  end.

Definition RuneCountInString (s : string) : nat := rune_count_from 0 s.

(** ** [strings.TrimSpace]

    Leading and trailing runes with [unicode.IsSpace] are removed.  The
    table lists the UTF-8 encodings of the white-space code points:
    U+0009..U+000D, U+0020, U+0085, U+00A0, U+1680, U+2000..U+200A,
    U+2028, U+2029, U+202F, U+205F and U+3000. *)

Definition space_encodings : list (list Z) :=
  [ [9]; [10]; [11]; [12]; [13]; [32];
    [194; 133]; [194; 160];
    [225; 154; 128];
    [226; 128; 128]; [226; 128; 129]; [226; 128; 130]; [226; 128; 131];
    [226; 128; 132]; [226; 128; 133]; [226; 128; 134]; [226; 128; 135];
    [226; 128; 136]; [226; 128; 137]; [226; 128; 138];
    [226; 128; 168]; [226; 128; 169]; [226; 128; 175];
    [226; 129; 159];
    [227; 128; 128] ].

Fixpoint has_prefix (p : list Z) (s : string) : bool :=
  match p, s with
  | [], _ => true
  | b :: p', String c s' => (byte_val c =? b) && has_prefix p' s'
  | _ :: _, EmptyString => false
  end.

(** Length in bytes of the white-space rune encoded at the front of
    [s] according to [table]; [0] when [s] does not start with one. *)
Definition space_prefix (table : list (list Z)) (s : string) : nat :=
  match find (fun p => has_prefix p s) table with
  | Some p => length p
  | None => O
  end.

Fixpoint trim_front (table : list (list Z)) (skip : nat) (s : string) : string :=
  match s with
  | EmptyString => ""
  | String c s' =>
      match skip with
      | S k => trim_front table k s'
      | O =>
          match space_prefix table s with
          | O => s
          | S k => trim_front table k s'
          end
      end
  end.

Fixpoint rev_string (acc s : string) : string :=
  match s with
  | EmptyString => acc
  | String c s' => rev_string (String c acc) s'
  end.

Definition TrimLeftSpace (s : string) : string :=
  trim_front space_encodings 0 s.

(** Trailing white space is found by decoding backwards from the end;
    on the reversed string this is a search for the reversed encodings
    at the front. *)
Definition TrimRightSpace (s : string) : string :=
  rev_string "" (trim_front (map (@rev Z) space_encodings) 0 (rev_string "" s)).

Definition TrimSpace (s : string) : string :=
  TrimRightSpace (TrimLeftSpace s).

(** ** [bufio.Reader.ReadString('\n')] over an in-memory input

    The reader is the input still to be read.  The result is the data
    read, whether the read ended with [io.EOF] (the delimiter was not
    found), and the reader afterwards.  As in Go, the data read before
    the end of the input is returned together with [io.EOF].  Read
    errors other than [io.EOF] do not occur on an in-memory input, so
    the branches of the callers that return such an error are absent. *)

Definition newline : ascii := "010"%char.

Fixpoint ReadString (r : string) : string * bool * string :=
  match r with
  | EmptyString => ("", true, "")
  | String c r' =>
      if Ascii.eqb c newline then (String c "", false, r')
      else let '(line, eof, rest) := ReadString r' in (String c line, eof, rest)
  end.

(** ** 64-bit integers *)

Definition MinInt64 : Z := - 2 ^ 63.
Definition MaxInt64 : Z := 2 ^ 63 - 1.

(** Two's complement wrap-around of a 64-bit signed operation. *)
Definition wrap64 (z : Z) : Z := (z + 2 ^ 63) mod 2 ^ 64 - 2 ^ 63.

End GoString.

Import GoString.

(* ===================================================================== *)
(** * Package holdings *)
(* ===================================================================== *)

Module Holdings.

(** [time.Duration]: a signed 64-bit count of nanoseconds. *)
Definition Duration : Type := Z.

Definition Hour : Duration := 3600 * 1000000000.
Definition day : Duration := 24 * Hour.
Definition month : Duration := 30 * day.
Definition year : Duration := 12 * month.

(** The errors a delay computation can return: the three package-level
    error values, and the [*strconv.NumError] of [strconv.Atoi]. *)
Inductive NumErr : Type := ErrSyntax | ErrRange.

Inductive error : Type :=
| errUnknownUnit
| errUnknownFormat
| errDelayMismatch
| errNum (e : NumErr).

(** ** [strconv.Atoi] on a 64-bit platform: an optional sign, at least
    one decimal digit, and a range check. *)
Definition Atoi (s : string) : Z * option error :=
  let '(neg, ds) :=
    match s with
    | String "-" r => (true, r)
    | String "+" r => (false, r)
    | _ => (false, s)
    end in
  if negb (nonempty ds && all_digits ds) then (0, Some (errNum ErrSyntax))
  else
    let n := if neg then - num ds else num ds in
    if n <? MinInt64 then (MinInt64, Some (errNum ErrRange))
    else if MaxInt64 <? n then (MaxInt64, Some (errNum ErrRange))
    else (n, None).

(** ** [delayPattern = ^(-\d+)(M|Y)$]

    [split_digits] is the greedy [\d+]; what follows the digits must be
    exactly the unit letter, since [$] matches at the end of the text
    only.  The result is Go's submatch slice: empty when there is no
    match, otherwise the whole match followed by the two groups. *)
Fixpoint split_digits (s : string) : string * string :=
  match s with
  | EmptyString => ("", "")
  | String c s' =>
      if is_digit c
      then let '(d, r) := split_digits s' in (String c d, r)
      else ("", s)
  end.

Definition delayPattern_FindStringSubmatch (s : string) : list string :=
  match s with
  | String "-" rest =>
      let '(ds, u) := split_digits rest in
      if nonempty ds && (String.eqb u "M" || String.eqb u "Y")
      then [s; String "-" ds; u]
      else []
  | _ => []
  end.

(** ** [ParseDelay] *)
Definition ParseDelay (s : string) : Duration * option error :=
  let ms := delayPattern_FindStringSubmatch s in
  if negb (length ms =? 3)%nat then (0, Some errUnknownFormat)
  else
    let '(value, err) := Atoi (nth 1 ms "") in
    match err with
    | Some e => (0, Some e)
    | None =>
        if String.eqb (nth 2 ms "") "Y" then (wrap64 (value * year), None)
        else if String.eqb (nth 2 ms "") "M" then (wrap64 (value * month), None)
        else (0, Some errUnknownUnit)
    end.

(** ** [Entitlement] *)
Record Entitlement : Type := {
  Status : string;
  URL : string;
  Anchor : string;
  FromYear : string;
  FromVolume : string;
  FromIssue : string;
  FromDelay : string;
  ToYear : string;
  ToVolume : string;
  ToIssue : string;
  ToDelay : string
}.

(** [Entitlement.Delay]. *)
Definition Delay (e : Entitlement) : Duration * option error :=
  if nonempty (FromDelay e) && nonempty (ToDelay e)
     && negb (String.eqb (FromDelay e) (ToDelay e))
  then (0, Some errDelayMismatch)
  else if nonempty (FromDelay e) then ParseDelay (FromDelay e)
  else if nonempty (ToDelay e) then ParseDelay (ToDelay e)
  else (0, None).

(** [Entitlement.Delay] in the revision of the file kept as
    [holdings/ovid.go], which declares no [errDelayMismatch] and does
    not compare the two delay strings. *)
Definition Delay_ovid (e : Entitlement) : Duration * option error :=
  if nonempty (FromDelay e) then ParseDelay (FromDelay e)
  else if nonempty (ToDelay e) then ParseDelay (ToDelay e)
  else (0, None).

(** ** [CombineDatum] *)

Definition LowDatum : string := "0000000000000000".
Definition HighDatum : string := "ZZZZZZZZZZZZZZZZ".

(** [fmt]'s [%0ws] applied to a string: left padding with ["0"] up to a
    width of [w] runes; a longer operand is written unchanged. *)
Definition fmt_pad0 (w : nat) (s : string) : string :=
  zeros (w - RuneCountInString s) +:+ s.

(** [fmt.Sprintf("%04s%06s%06s", year, volume, issue)]. *)
Definition Sprintf_04s_06s_06s (year volume issue : string) : string :=
  fmt_pad0 4 year +:+ fmt_pad0 6 volume +:+ fmt_pad0 6 issue.

Definition CombineDatum (year volume issue empty : string) : string :=
  if String.eqb year "" && String.eqb volume "" && String.eqb issue ""
     && negb (String.eqb empty "")
  then empty
  else Sprintf_04s_06s_06s year volume issue.

(** ** [Holding] and the ISSN index *)

Record Holding : Type := {
  EZBID : Z;
  Title : string;
  Publishers : string;
  PISSN : list string;
  EISSN : list string;
  Entitlements : list Entitlement
}.

(** [ISSNPattern = ^\d\d\d\d-\d\d\d\d$], [MatchString]. *)
Definition ISSNPattern_MatchString (s : string) : bool :=
  match s with
  | String a (String b (String c (String d (String "-"
      (String e (String f (String g (String h EmptyString)))))))) =>
      is_digit a && is_digit b && is_digit c && is_digit d
      && is_digit e && is_digit f && is_digit g && is_digit h
  | _ => false
  end.

(** The tokens [xml.Decoder.Token] hands to the loop of [HoldingsMap].
    Only the local name of a start element is inspected. *)
Inductive Token : Type :=
| StartElement (Local : string)
| EndElement (Local : string)
| CharData
| Comment
| ProcInst
| Directive.

(** The decoder as [HoldingsMap] observes it: the tokens returned in
    turn, each start element paired with the value that
    [DecodeElement] stores into [item] when called at it (errors of
    [Token] and [DecodeElement] are discarded by the code).  The end of
    the list is the [nil] token. *)
Definition Decoder : Type := list (Token * Holding).

(** One iteration of [for _, id := range ...]: [h[tid] = item] when the
    trimmed identifier is a canonical ISSN. *)
Definition register (item : Holding) (h : gmap string Holding) (id : string)
  : gmap string Holding :=
  let tid := TrimSpace id in
  if ISSNPattern_MatchString tid then <[tid := item]> h else h.

Definition register_all (item : Holding) (ids : list string)
    (h : gmap string Holding) : gmap string Holding :=
  fold_left (register item) ids h.

Fixpoint HoldingsMap_loop (decoder : Decoder) (h : gmap string Holding)
  : gmap string Holding :=
  match decoder with
  | [] => h
  | (StartElement tag, item) :: rest =>
      if String.eqb tag "holding"
      then HoldingsMap_loop rest
             (register_all item (PISSN item) (register_all item (EISSN item) h))
      else HoldingsMap_loop rest h
  | _ :: rest => HoldingsMap_loop rest h
  end.

Definition HoldingsMap (decoder : Decoder) : gmap string Holding :=
  HoldingsMap_loop decoder ∅.

(** ** [Licenses] *)

(** The loop of [Licenses.Add] over the ranges already stored: whether
    one of them equals [license]. *)
Fixpoint Add_loop (license : string) (vs : list string) : bool :=
  match vs with
  | [] => false
  | v :: rest => if String.eqb v license then true else Add_loop license rest
  end.

(** [Licenses.Add]; [t[issn]] is the empty slice for a missing key. *)
Definition Licenses_Add (t : gmap string (list string)) (issn license : string)
  : gmap string (list string) :=
  let vs := default [] (t !! issn) in
  if Add_loop license vs then t
  else <[issn := vs ++ [license]]> t.

(** ** [IsilIssnHolding.Isils] *)

(** The loop of [Isils] over the entries of the map, in the order in
    which [range] yields them. *)
Definition Isils_range (entries : list (string * gmap string Holding))
  : list string :=
  fold_left (fun keys e => keys ++ [fst e]) entries [].

Definition Isils (iih : gmap string (gmap string Holding)) : list string :=
  Isils_range (map_to_list iih).

(** ** [Entitlement.Boundary] *)

(** [time.Time] as an instant, in nanoseconds since the Unix epoch;
    [zeroTime] is the zero value (January 1, year 1, 00:00 UTC), and
    [t.Add(d)] is [t + d]. *)
Definition Time : Type := Z.
Definition zeroTime : Time := -62135596800 * 1000000000.

(** [Boundary], with the value of [time.Now()] as [now]. *)
Definition Boundary (now : Time) (e : Entitlement) : Time * option error :=
  let '(delay, err) := Delay e in
  match err with
  | Some err => (zeroTime, Some err)
  | None => (now + delay, None)
  end.

End Holdings.

(* ===================================================================== *)
(** * Package span: filters and the ISIL tagger *)
(* ===================================================================== *)

Module Span.

(** Modelled from the spec: [container.StringSet], a deduplicated,
    unordered collection of strings with [Add], [Contains] and
    [Values]. *)
Definition StringSet : Type := gset string.
Definition NewStringSet : StringSet := ∅.
Definition Add (x : string) (s : StringSet) : StringSet := {[ x ]} ∪ s.
Definition Contains (s : StringSet) (x : string) : bool := bool_decide (x ∈ s).
Definition Values (s : StringSet) : list string := elements s.

(** Modelled from the spec: [finc.IntermediateSchema], reduced to the
    fields the filters read: the ISSN and e-ISSN lists, the year of the
    publication date ([Date.Year()]), volume, issue and the source
    identifier. *)
Record IntermediateSchema : Type := {
  ISSN : list string;
  EISSN : list string;
  DateYear : Z;
  Volume : string;
  Issue : string;
  SourceID : string
}.

(** [time.Time] as an instant on the time line; [t.After(u)]. *)
Definition Time : Type := Z.
Definition After (t u : Time) : bool := u <? t.

(** [fmt.Sprintf("%d", n)]. *)
Definition Sprintf_d (n : Z) : string := NilEmpty.string_of_int (Z.to_int n).

Section Filters.

(** The license type stored in the table of a [HoldingFilter], with
    its methods [Covers] and [Wall]; their code is_ not part of the
    sources at hand. *)
Variable License : Type.
Variable Covers : License -> string -> bool.
Variable Wall : License -> Time -> Time.

(** The implementations of the [Filter] interface. *)
Inductive Filter : Type :=
| Any
| SourceFilter (SourceID : string)
| HoldingFilter (Ref : Time) (Table : gmap string (list License))
| ListFilter (Set_ : StringSet).

(** The loop of [CoveredAndValid] over the licenses of one ISSN. *)
Fixpoint CoveredAndValid_loop (Ref : Time) (signature : string)
    (licenses : list License) : bool :=
  match licenses with
  | [] => false
  | license :: rest =>
      if negb (Covers license signature)
      then CoveredAndValid_loop Ref signature rest
      else if After Ref (Wall license Ref) then true
      else CoveredAndValid_loop Ref signature rest
  end.

Definition CoveredAndValid (Ref : Time) (Table : gmap string (list License))
    (signature issn : string) : bool :=
  match Table !! issn with
  | None => false
  | Some licenses => CoveredAndValid_loop Ref signature licenses
  end.

(** [for _, issn := range ... { if p(issn) { return true } }; return false]. *)
Fixpoint any_issn (p : string -> bool) (issns : list string) : bool :=
  match issns with
  | [] => false
  | issn :: rest => if p issn then true else any_issn p rest
  end.

Definition HoldingFilter_Apply (Ref : Time) (Table : gmap string (list License))
    (is_ : IntermediateSchema) : bool :=
  let signature :=
    Holdings.CombineDatum (Sprintf_d (DateYear is_)) (Volume is_) (Issue is_) "" in
  any_issn (CoveredAndValid Ref Table signature) (ISSN is_ ++ EISSN is_).

Definition ListFilter_Apply (Set_ : StringSet) (is_ : IntermediateSchema) : bool :=
  any_issn (Contains Set_) (ISSN is_ ++ EISSN is_).

Definition Apply (f : Filter) (is_ : IntermediateSchema) : bool :=
  match f with
  | Any => true
  | SourceFilter id => String.eqb (SourceID is_) id
  | HoldingFilter Ref Table => HoldingFilter_Apply Ref Table is_
  | ListFilter Set_ => ListFilter_Apply Set_ is_
  end.

(** ** [ISILTagger.Tags] *)

(** The inner loop over the filters of one institution. *)
Definition Tags_filters (is_ : IntermediateSchema) (isil : string)
    (filters : list Filter) (isils : StringSet) : StringSet :=
  fold_left (fun acc f => if Apply f is_ then Add isil acc else acc)
            filters isils.

(** The outer loop, over the entries of the map in the order in which
    [range] happens to yield them. *)
Definition Tags_range (is_ : IntermediateSchema)
    (entries : list (string * list Filter)) : StringSet :=
  fold_left (fun acc e => Tags_filters is_ (fst e) (snd e) acc)
            entries NewStringSet.

Definition Tags (t : gmap string (list Filter)) (is_ : IntermediateSchema)
  : list string :=
  Values (Tags_range is_ (map_to_list t)).

End Filters.

(** ** [NewListFilter] *)

Fixpoint NewListFilter_loop (fuel : nat) (br : string) (set : StringSet)
  : option StringSet :=
  match fuel with
  | O => None
  | S fuel' =>
      let '(line, eof, br') := ReadString br in
      if eof then Some set
      else if String.eqb (TrimSpace line) "" then NewListFilter_loop fuel' br' set
      else NewListFilter_loop fuel' br' (Add (TrimSpace line) set)
  end.

(** The set of the returned [ListFilter]; the in-memory reader raises
    no error other than [io.EOF], so the returned error is_ [nil]. *)
Definition NewListFilter (r : string) : option StringSet :=
  NewListFilter_loop (S (String.length r)) r NewStringSet.

End Span.

(* ===================================================================== *)
(** * Command span-import: the batch pipeline *)
(* ===================================================================== *)

Module Main.

Record Options : Type := {
  Holdings : gmap string (gmap string Holdings.Holding);
  IgnoreErrors : bool;
  Verbose : bool;
  NumWorkers : Z;
  BatchSize : Z
}.

(** ** The reader loop of [BatchedLDJProcessor]

    [batches] collects the slices sent on the channel, each with the
    content it has at the moment of the hand-off.  (After a hand-off the
    code goes on with [batch[:0]], the same backing array; what a worker
    sees if the reader writes to it meanwhile depends on the scheduling
    and is outside this model.) *)

(** [make([]string, n)]: [n] empty strings. *)
Definition make (n : Z) : list string := repeat "" (Z.to_nat n).

Fixpoint reader_loop (fuel : nat) (BatchSize : Z) (reader : string)
    (i : Z) (batch : list string) (batches : list (list string))
  : option (list (list string)) :=
  match fuel with
  | O => None
  | S fuel' =>
      let '(line, eof, reader') := ReadString reader in
      if eof then Some (batches ++ [batch])
      else
        let batch := batch ++ [line] in
        let '(i, batch, batches) :=
          if i =? BatchSize then (1, [], batches ++ [batch])
          else (i, batch, batches) in
        reader_loop fuel' BatchSize reader' (wrap64 (i + 1)) batch batches
  end.

Definition reader (BatchSize : Z) (content : string)
  : option (list (list string)) :=
  reader_loop (S (String.length content)) BatchSize content
              1 (make BatchSize) [].

(** [ByteSliceCollector]: every document is written followed by a
    newline. *)
Definition ByteSliceCollector (docs : list string) : string :=
  fold_right (fun b out => b +:+ String newline out) "" docs.

(** What a run of the program comes to. *)
Inductive outcome : Type :=
| Panics
| Deadlocks
| Writes (docs : list string).

Section Worker.

(** The crossref side of the worker, whose code is not part of the
    sources at hand: the document type with [json.Unmarshal] into a
    fresh document (its error is discarded), [ToSolrSchema] with
    whether it reported an error, [Institutions], [SetTags] and
    [json.Marshal] (taken to succeed; on its error the code ends the
    program with [log.Fatal]). *)
Variable Document : Type.
Variable Schema : Type.
Variable Unmarshal : string -> Document.
Variable ToSolrSchema : Document -> Schema * bool.
Variable Institutions :
  Document -> gmap string (gmap string Holdings.Holding) -> list string.
Variable SetTags : Schema -> list string -> Schema.
Variable Marshal : Schema -> string.

(** The body of the inner loop of [BatchedLDJWorker]: the documents
    sent to [out] for one line. *)
Definition worker_line (options : Options) (line : string) : list string :=
  let doc := Unmarshal line in
  let '(schema, err) := ToSolrSchema doc in
  if err && IgnoreErrors options then []
  else [Marshal (SetTags schema (Institutions doc (Holdings options)))].

Definition worker_batch (options : Options) (batch : list string)
  : list string :=
  flat_map (worker_line options) batch.

(** The documents reaching the collector: some merge of the sequences
    the workers produce for the batches. *)
Inductive merged : list (list string) -> list string -> Prop :=
| merged_done : forall seqs, Forall (fun q => q = []) seqs -> merged seqs []
| merged_step : forall pre b q post docs,
    merged (pre ++ q :: post) docs ->
    merged (pre ++ (b :: q) :: post) (b :: docs).

(** The run in which batches are taken up one after the other, as
    with a single worker. *)
Definition BatchedLDJProcessor (options : Options) (content : string)
  : option outcome :=
  if BatchSize options <? 0 then Some Panics
  else if NumWorkers options <=? 0 then Some Deadlocks
  else match reader (BatchSize options) content with
       | None => None
       | Some batches =>
           Some (Writes (concat (map (worker_batch options) batches)))
       end.

(** Any run: the documents written, in the order of arrival. *)
Definition BatchedLDJProcessor_writes (options : Options) (content : string)
    (docs : list string) : Prop :=
  0 <= BatchSize options /\ 0 < NumWorkers options /\
  exists batches, reader (BatchSize options) content = Some batches /\
                  merged (map (worker_batch options) batches) docs.

(** The specification's reference: every input line parsed,
    transformed, tagged and serialized in turn. *)
Definition sequential (options : Options) (lines : list string)
  : list string :=
  flat_map (worker_line options) lines.

End Worker.

(** The newline-terminated lines of an input, in order. *)
Fixpoint lines_from (cur : string) (r : string) : list string :=
  match r with
  | EmptyString => []
  | String c r' =>
      if Ascii.eqb c newline
      then (cur +:+ String c "") :: lines_from "" r'
      else lines_from (cur +:+ String c "") r'
  end.

Definition lines (content : string) : list string := lines_from "" content.

End Main.

(* ===================================================================== *)
(** * Specification-side notions *)
(* ===================================================================== *)

(** The notions in which the properties of the three packages are stated,
    and the sample data on which they are instantiated. *)

Module HoldingsSpec.
Import Holdings.

(** ** Delay strings *)

(** The specification's delay syntax [-<integer><M|Y>]: [s] is a minus
    sign, a non-empty run of decimal digits and a unit letter; [n] is
    the signed integer and [u] the unit. *)
Definition delay_string (s : string) (n : Z) (u : string) : Prop :=
  exists ds, s = String "-" (ds +:+ u) /\ ds <> "" /\ all_digits ds = true /\
             n = - num ds /\ (u = "M" \/ u = "Y").

(** 30 days for [M], 360 days for [Y], in nanoseconds. *)
Definition unit_duration (u : string) : Z :=
  if String.eqb u "Y" then 360 * day else 30 * day.

Definition entitlement_with_delays (from to : string) : Entitlement :=
  {| Status := ""; URL := ""; Anchor := "";
     FromYear := ""; FromVolume := ""; FromIssue := ""; FromDelay := from;
     ToYear := ""; ToVolume := ""; ToIssue := ""; ToDelay := to |}.

(** ** Datum encoding *)

(** The specification's padding: [padded] is [s] with zeros put in
    front, as many as it takes to reach the width [w], and none when
    [s] is that wide already.  Widths are counted in runes. *)
Definition zero_padded (w : nat) (s padded : string) : Prop :=
  exists k, padded = zeros k +:+ s /\
            RuneCountInString padded = Nat.max w (RuneCountInString s).

(** A decimal string of at most [w] digits. *)
Definition numeric (w : nat) (s : string) : Prop :=
  all_digits s = true /\ (String.length s <= w)%nat.

(** Lexicographic order on (year, volume, issue) triples of numbers. *)
Definition tuple_lt (a b : Z * Z * Z) : Prop :=
  let '(y1, v1, i1) := a in
  let '(y2, v2, i2) := b in
  y1 < y2 \/ (y1 = y2 /\ (v1 < v2 \/ (v1 = v2 /\ i1 < i2))).

(** ** The ISSN index *)

(** [item] lists the ISSN [k]: one of its e-ISSN or print-ISSN strings
    is [k] once trimmed, and [k] has the canonical form. *)
Definition names_issn (k : string) (id : string) : bool :=
  String.eqb (TrimSpace id) k && ISSNPattern_MatchString (TrimSpace id).

Definition lists_issn (k : string) (item : Holding) : bool :=
  existsb (names_issn k) (EISSN item ++ PISSN item).

(** The holdings decoded from the document, in document order. *)
Fixpoint holdings_of (decoder : Decoder) : list Holding :=
  match decoder with
  | [] => []
  | (StartElement tag, item) :: rest =>
      if String.eqb tag "holding" then item :: holdings_of rest
      else holdings_of rest
  | _ :: rest => holdings_of rest
  end.

(** The last holding of a list that lists [k]. *)
Fixpoint last_lister (k : string) (hs : list Holding) : option Holding :=
  match hs with
  | [] => None
  | item :: rest =>
      match last_lister k rest with
      | Some later => Some later
      | None => if lists_issn k item then Some item else None
      end
  end.

Definition holding_with_issns (id : Z) (pissn eissn : list string) : Holding :=
  {| EZBID := id; Title := ""; Publishers := "";
     PISSN := pissn; EISSN := eissn; Entitlements := [] |}.

Definition two_holdings : Decoder :=
  [ (StartElement "holdings", holding_with_issns 0 [] []);
    (StartElement "holding", holding_with_issns 1 ["1234-5678"] [" 8765-4321 "; "bogus"]);
    (CharData, holding_with_issns 0 [] []);
    (StartElement "holding", holding_with_issns 2 ["1234-5678"] []) ].

End HoldingsSpec.

Module SpanSpec.
Import Span.

(** The signature [HoldingFilter.Apply] computes for a record. *)
Definition signature_of (is_ : IntermediateSchema) : string :=
  Holdings.CombineDatum (Sprintf_d (DateYear is_)) (Volume is_) (Issue is_) "".

Section FilterSpec.

Variable License : Type.
Variable Covers : License -> string -> bool.
Variable Wall : License -> Time -> Time.

Local Abbreviation Filter := (Filter License).
Local Abbreviation Apply := (Apply License Covers Wall).

(** A license that covers the signature and whose wall lies before
    the reference time. *)
Definition covering_released (Ref : Time) (signature : string)
    (license : License) : bool :=
  Covers license signature && After Ref (Wall license Ref).

(** An institution's filter list accepts the record. *)
Definition accepted (is_ : IntermediateSchema) (filters : list Filter) : Prop :=
  exists f, f ∈ filters /\ Apply f is_ = true.

End FilterSpec.

(** ** Sample data *)

(** A license as a datum range with a moving-wall delay. *)
Record range_license : Type := {
  low : string;
  high : string;
  delay : Z
}.

Definition range_Covers (l : range_license) (signature : string) : bool :=
  String.leb (low l) signature && String.leb signature (high l).

Definition range_Wall (l : range_license) (ref : Time) : Time := ref + delay l.

Definition record_2010 : IntermediateSchema :=
  {| ISSN := ["1234-5678"]; EISSN := []; DateYear := 2010;
     Volume := "10"; Issue := "5"; SourceID := "49" |}.

Definition table_2000_2020 : gmap string (list range_license) :=
  {[ "1234-5678" := [ {| low := "2000000001000001";
                         high := "2020000050000012";
                         delay := -1 |} ] ]}.

Definition table_other : gmap string (list range_license) :=
  {[ "0000-0001" := [ {| low := "2000000001000001";
                         high := "2020000050000012";
                         delay := -1 |} ] ]}.

Definition sample_tagger : gmap string (list (Filter range_license)) :=
  {[ "ISIL-1" := [ HoldingFilter range_license 100 table_2000_2020 ];
     "ISIL-2" := [ SourceFilter range_license "48"; HoldingFilter range_license 100 table_other ];
     "ISIL-3" := [] ]}.

End SpanSpec.

Module MainSpec.
Import Main.

Fixpoint newline_free (s : string) : bool :=
  match s with
  | EmptyString => true
  | String c s' => negb (Ascii.eqb c newline) && newline_free s'
  end.

(** The loop of the reader, driven by the lines that the successive
    reads return. *)
Fixpoint reader_steps (BatchSize : Z) (ls : list string)
    (i : Z) (batch : list string) (batches : list (list string))
  : list (list string) :=
  match ls with
  | [] => batches ++ [batch]
  | line :: ls' =>
      let batch := batch ++ [line] in
      let '(i, batch, batches) :=
        if i =? BatchSize then (1, [], batches ++ [batch])
        else (i, batch, batches) in
      reader_steps BatchSize ls' (wrap64 (i + 1)) batch batches
  end.

Definition add_line (set : Span.StringSet) (line : string) : Span.StringSet :=
  if String.eqb (TrimSpace line) "" then set
  else Span.Add (TrimSpace line) set.

(** A line: the text followed by the newline. *)
Definition line (text : string) : string := text +:+ String newline "".

(** The strings of a list, one after the other. *)
Definition join (ls : list string) : string := fold_right String.append "" ls.

(** ** Sample data: a worker that passes lines through *)

(** Documents and schemas are strings; an empty document fails to
    transform; the tags are joined and put in front of the schema. *)
Definition echo_Unmarshal (line : string) : string := TrimSpace line.
Definition echo_ToSolrSchema (doc : string) : string * bool :=
  (doc, String.eqb doc "").
Definition echo_Institutions (doc : string)
    (holdings : gmap string (gmap string Holdings.Holding)) : list string :=
  Holdings.Isils holdings.
Definition echo_SetTags (schema : string) (tags : list string) : string :=
  join tags +:+ schema.
Definition echo_Marshal (schema : string) : string := schema.

Definition echo_options (ignore : bool) (workers size : Z) : Options :=
  {| Holdings := ∅; IgnoreErrors := ignore; Verbose := false;
     NumWorkers := workers; BatchSize := size |}.

End MainSpec.

(* ===================================================================== *)
(** * Properties of package holdings *)
(* ===================================================================== *)

Module HoldingsFacts.
Import Holdings HoldingsSpec.

(** ** Delay strings *)

Lemma nonempty_true (s : string) : nonempty s = true <-> s <> "".
Proof.
  unfold nonempty. destruct s; simpl; split; intros H; congruence.
Qed.

Lemma nonempty_false (s : string) : nonempty s = false <-> s = "".
Proof.
  unfold nonempty. destruct s; simpl; split; intros H; congruence.
Qed.

Lemma digit_val_range (c : ascii) : is_digit c = true -> 0 <= digit_val c <= 9.
Proof. unfold is_digit, digit_val. lia. Qed.

Lemma digits_val_acc (s : string) : forall acc,
  digits_val acc s = acc * 10 ^ Z.of_nat (String.length s) + num s.
Proof.
  unfold num. induction s as [|c s IH]; intros acc.
  - simpl. lia.
  - cbn [digits_val String.length]. rewrite (IH (10 * acc + digit_val c)).
    rewrite (IH (10 * 0 + digit_val c)).
    rewrite Nat2Z.inj_succ, Z.pow_succ_r by lia. lia.
Qed.

Lemma num_bounds (s : string) :
  all_digits s = true -> 0 <= num s < 10 ^ Z.of_nat (String.length s).
Proof.
  induction s as [|c s IH]; intros Hd.
  - unfold num. simpl. lia.
  - simpl in Hd. apply andb_prop in Hd as [Hc Hs].
    unfold num. cbn [digits_val String.length].
    rewrite digits_val_acc. specialize (IH Hs).
    apply digit_val_range in Hc.
    rewrite Nat2Z.inj_succ, Z.pow_succ_r by lia. nia.
Qed.

Lemma split_digits_app (ds u : string) :
  all_digits ds = true -> (u = "M" \/ u = "Y") ->
  split_digits (ds +:+ u) = (ds, u).
Proof.
  intros Hd Hu. induction ds as [|c ds IH].
  - destruct Hu as [-> | ->]; reflexivity.
  - simpl in Hd. apply andb_prop in Hd as [Hc Hs].
    simpl. rewrite Hc, (IH Hs). reflexivity.
Qed.

Lemma split_digits_inv (s : string) : forall ds r,
  split_digits s = (ds, r) -> s = ds +:+ r /\ all_digits ds = true.
Proof.
  induction s as [|c s IH]; intros ds r H.
  - inversion H; subst. split; reflexivity.
  - cbn [split_digits] in H. destruct (is_digit c) eqn:Hc.
    + destruct (split_digits s) as [d r'] eqn:Hs. inversion H; subst.
      destruct (IH d r eq_refl) as [-> Hd]. split; [reflexivity|].
      simpl. rewrite Hc, Hd. reflexivity.
    + inversion H; subst. split; reflexivity.
Qed.

(** The submatch slice of a delay string. *)
Lemma FindStringSubmatch_match (s : string) (n : Z) (u : string) :
  delay_string s n u ->
  exists ds, all_digits ds = true /\ ds <> "" /\ n = - num ds /\
             delayPattern_FindStringSubmatch s = [s; String "-" ds; u].
Proof.
  intros (ds & -> & Hne & Hd & -> & Hu). exists ds. repeat split; trivial.
  unfold delayPattern_FindStringSubmatch.
  rewrite (split_digits_app ds u Hd Hu).
  apply nonempty_true in Hne. rewrite Hne.
  destruct Hu as [-> | ->]; reflexivity.
Qed.

(** A string that is not a delay string has no submatches. *)
Lemma FindStringSubmatch_nomatch (s : string) :
  (forall n u, ~ delay_string s n u) ->
  delayPattern_FindStringSubmatch s = [].
Proof.
  intros Hno. unfold delayPattern_FindStringSubmatch.
  destruct s as [|c rest]; [reflexivity|].
  destruct (Ascii.eqb_spec c "-"%char) as [-> | Hc].
  2:{ destruct c as [[] [] [] [] [] [] [] []]; try reflexivity. congruence. }
  destruct (split_digits rest) as [ds u] eqn:Hs.
  destruct (nonempty ds && (String.eqb u "M" || String.eqb u "Y")) eqn:Hc;
    [|reflexivity].
  exfalso. apply andb_prop in Hc as [Hne Hu].
  apply split_digits_inv in Hs as [-> Hd].
  apply (Hno (- num ds) u). exists ds. repeat split; trivial.
  - now apply nonempty_true.
  - apply orb_prop in Hu as [Hu | Hu]; apply String.eqb_eq in Hu; auto.
Qed.

Lemma Atoi_negative (ds : string) :
  all_digits ds = true -> ds <> "" ->
  Atoi (String "-" ds) =
    if - num ds <? MinInt64 then (MinInt64, Some (errNum ErrRange))
    else (- num ds, None).
Proof.
  intros Hd Hne. unfold Atoi. apply nonempty_true in Hne.
  rewrite Hne, Hd. cbn [andb negb].
  destruct (- num ds <? MinInt64) eqn:Hr; [reflexivity|].
  pose proof (num_bounds ds Hd) as Hb.
  assert (Z.ltb MaxInt64 (- num ds) = false) as ->; [|reflexivity].
  unfold MaxInt64. lia.
Qed.

Lemma unit_duration_Y : unit_duration "Y" = year.
Proof. reflexivity. Qed.

Lemma unit_duration_M : unit_duration "M" = month.
Proof. reflexivity. Qed.

(** [ParseDelay] computed on a delay string. *)
Lemma ParseDelay_match (s : string) (n : Z) (u : string) :
  delay_string s n u ->
  ParseDelay s =
    if n <? MinInt64 then (0, Some (errNum ErrRange))
    else (wrap64 (n * unit_duration u), None).
Proof.
  intros H. pose proof H as (ds0 & _ & _ & _ & _ & Hu).
  destruct (FindStringSubmatch_match s n u H) as (ds & Hd & Hne & -> & Hms).
  unfold ParseDelay. rewrite Hms. cbn [length Nat.eqb negb nth].
  rewrite (Atoi_negative ds Hd Hne).
  destruct (- num ds <? MinInt64); [reflexivity|].
  destruct Hu as [-> | ->]; reflexivity.
Qed.

(** The errors of [Atoi] are [NumError]s. *)
Lemma Atoi_error (s : string) (v : Z) (e : error) :
  Atoi s = (v, Some e) -> exists k, e = errNum k.
Proof.
  unfold Atoi.
  destruct (match s with
            | String "-" r => (true, r)
            | String "+" r => (false, r)
            | _ => (false, s)
            end) as [neg ds].
  destruct (negb (nonempty ds && all_digits ds)).
  - intros [= _ <-]. eauto.
  - destruct (Z.ltb _ MinInt64).
    + intros [= _ <-]. eauto.
    + destruct (MaxInt64 <? _); [intros [= _ <-]; eauto | discriminate].
Qed.

(** The unit branch of [ParseDelay] is entered with the second group of
    the pattern, which is [M] or [Y]. *)
Lemma FindStringSubmatch_unit (s : string) :
  length (delayPattern_FindStringSubmatch s) = 3%nat ->
  nth 2 (delayPattern_FindStringSubmatch s) "" = "M" \/
  nth 2 (delayPattern_FindStringSubmatch s) "" = "Y".
Proof.
  unfold delayPattern_FindStringSubmatch.
  destruct s as [|c rest]; [discriminate|].
  destruct (Ascii.eqb_spec c "-"%char) as [-> | Hc].
  2:{ destruct c as [[] [] [] [] [] [] [] []]; try discriminate. congruence. }
  destruct (split_digits rest) as [ds u].
  destruct (nonempty ds); cbn [andb]; [|discriminate].
  destruct (String.eqb_spec u "M") as [-> | HM]; [auto|].
  destruct (String.eqb_spec u "Y") as [-> | HY]; [auto|]. discriminate.
Qed.

Lemma ParseDelay_errors (s : string) (e : error) :
  snd (ParseDelay s) = Some e -> e = errUnknownFormat \/ exists k, e = errNum k.
Proof.
  unfold ParseDelay.
  destruct (length (delayPattern_FindStringSubmatch s) =? 3)%nat eqn:Hlen;
    cbn [negb].
  2:{ intros [= <-]. auto. }
  apply Nat.eqb_eq in Hlen.
  destruct (Atoi _) as [value [e'|]] eqn:HA.
  - intros [= <-]. right. eapply Atoi_error; eauto.
  - destruct (FindStringSubmatch_unit s Hlen) as [-> | ->]; discriminate.
Qed.


(** Within these bounds the product fits the 64-bit duration. *)
Lemma wrap64_exact (z : Z) : MinInt64 <= z <= MaxInt64 -> wrap64 z = z.
Proof.
  unfold wrap64, MinInt64, MaxInt64. intros H.
  rewrite Z.mod_small; lia.
Qed.

(** C7, as the specification states it, fails: a delay string whose
    product leaves the 64-bit duration does not yield the integer times
    30 days, and one whose integer does not fit [int] yields the range
    error of [strconv.Atoi] instead of a duration. *)
Lemma ParseDelay_claim_fails :
  (delay_string "-3559M" (-3559) "M" /\
   ParseDelay "-3559M" <> (-3559 * unit_duration "M", None)) /\
  (delay_string "-9223372036854775809Y" (-9223372036854775809) "Y" /\
   ParseDelay "-9223372036854775809Y" = (0, Some (errNum ErrRange))).
Proof.
  split; split.
  - exists "3559". repeat split; auto; discriminate.
  - vm_compute. discriminate.
  - exists "9223372036854775809". repeat split; auto; discriminate.
  - vm_compute. reflexivity.
Qed.

(** C7 (amended): on a delay string [-<integer><M|Y>] whose integer fits
    the 64-bit [int], [ParseDelay] returns the integer times 30 days
    ([M]) or 360 days ([Y]) reduced to the 64-bit duration, which is that
    very product when the integer is at least -3558 ([M]) or -296 ([Y]);
    when the integer does not fit, it fails with the range error of
    [strconv.Atoi]; on every other string it fails with
    [errUnknownFormat]; and it never fails with [errUnknownUnit]. *)
Theorem ParseDelay_spec (s : string) :
  (forall n u, delay_string s n u -> MinInt64 <= n ->
     ParseDelay s = (wrap64 (n * unit_duration u), None)) /\
  (forall n u, delay_string s n u ->
     (if String.eqb u "Y" then -296 else -3558) <= n ->
     ParseDelay s = (n * unit_duration u, None)) /\
  (forall n u, delay_string s n u -> n < MinInt64 ->
     ParseDelay s = (0, Some (errNum ErrRange))) /\
  ((forall n u, ~ delay_string s n u) ->
     ParseDelay s = (0, Some errUnknownFormat)) /\
  snd (ParseDelay s) <> Some errUnknownUnit.
Proof.
  repeat split.
  - intros n u H Hn. rewrite (ParseDelay_match s n u H).
    destruct (n <? MinInt64) eqn:E; [lia | reflexivity].
  - intros n u H Hn. rewrite (ParseDelay_match s n u H).
    assert (n <= 0) as Hneg.
    { destruct H as (ds & _ & _ & Hd & -> & _).
      pose proof (num_bounds ds Hd). lia. }
    assert (MinInt64 <= n) as Hmin.
    { unfold MinInt64. destruct (String.eqb u "Y"); lia. }
    destruct (n <? MinInt64) eqn:E; [lia|].
    rewrite wrap64_exact; [reflexivity|].
    unfold unit_duration, MinInt64, MaxInt64, day, Hour in *.
    destruct (String.eqb u "Y"); lia.
  - intros n u H Hn. rewrite (ParseDelay_match s n u H).
    destruct (n <? MinInt64) eqn:E; [reflexivity | lia].
  - intros Hno. unfold ParseDelay.
    rewrite (FindStringSubmatch_nomatch s Hno). reflexivity.
  - intros H. apply ParseDelay_errors in H as [H | [k H]]; discriminate.
Qed.

Lemma ParseDelay_spec_witness :
  ParseDelay "-3Y" = (wrap64 (-3 * unit_duration "Y"), None) /\
  ParseDelay "-1M" = (-1 * unit_duration "M", None) /\
  ParseDelay "-9223372036854775809M" = (0, Some (errNum ErrRange)) /\
  ParseDelay "1M" = (0, Some errUnknownFormat).
Proof.
  split; [|split; [|split]].
  - apply (proj1 (ParseDelay_spec "-3Y") (-3) "Y").
    + exists "3". repeat split; auto; discriminate.
    + unfold MinInt64. lia.
  - apply (proj1 (proj2 (ParseDelay_spec "-1M")) (-1) "M").
    + exists "1". repeat split; auto; discriminate.
    + simpl. lia.
  - apply (proj1 (proj2 (proj2 (ParseDelay_spec "-9223372036854775809M")))
             (-9223372036854775809) "M").
    + exists "9223372036854775809". repeat split; auto; discriminate.
    + unfold MinInt64. lia.
  - apply (proj1 (proj2 (proj2 (proj2 (ParseDelay_spec "1M"))))).
    intros n u (ds & H & _). discriminate H.
Defined.

(** ** [Entitlement.Delay] *)

(** C3: [Delay] fails with [errDelayMismatch] exactly when both delay
    strings are non-empty and differ; otherwise it is [ParseDelay] of the
    start delay when that is present, else [ParseDelay] of the end delay
    when that is present, else the zero duration without error. *)
Theorem Delay_spec (e : Entitlement) :
  (snd (Delay e) = Some errDelayMismatch <->
     FromDelay e <> "" /\ ToDelay e <> "" /\ FromDelay e <> ToDelay e) /\
  (~ (FromDelay e <> "" /\ ToDelay e <> "" /\ FromDelay e <> ToDelay e) ->
     (FromDelay e <> "" -> Delay e = ParseDelay (FromDelay e)) /\
     (FromDelay e = "" -> ToDelay e <> "" -> Delay e = ParseDelay (ToDelay e)) /\
     (FromDelay e = "" -> ToDelay e = "" -> Delay e = (0, None))).
Proof.
  unfold Delay.
  destruct (nonempty (FromDelay e)) eqn:HF;
    destruct (nonempty (ToDelay e)) eqn:HT;
    destruct (String.eqb_spec (FromDelay e) (ToDelay e)) as [Heq | Hne];
    cbn [andb negb];
    try apply nonempty_true in HF; try apply nonempty_false in HF;
    try apply nonempty_true in HT; try apply nonempty_false in HT.
  all: split; [split|].
  all: try (intros (? & ? & ?); first [reflexivity | congruence]).
  all: try (intros H;
            first [ now repeat split
                  | apply ParseDelay_errors in H as [H | [k H]]; discriminate
                  | discriminate ]).
  all: intros Hnot;
    first [ exfalso; apply Hnot; now repeat split
          | repeat split; intros; congruence ].
Qed.

Lemma Delay_spec_witness :
  snd (Delay (entitlement_with_delays "-1Y" "-2Y")) = Some errDelayMismatch /\
  Delay (entitlement_with_delays "" "-2M") = ParseDelay "-2M".
Proof.
  split.
  - apply (proj1 (Delay_spec (entitlement_with_delays "-1Y" "-2Y"))).
    simpl. repeat split; discriminate.
  - apply (proj2 (Delay_spec (entitlement_with_delays "" "-2M"))).
    + simpl. intros (H & _). congruence.
    + reflexivity.
    + simpl. discriminate.
Defined.


(** The revision without the guard returns what [Delay] returns,
    except where [Delay] reports the mismatch. *)
Lemma Delay_ovid_agrees (e : Entitlement) :
  snd (Delay e) <> Some errDelayMismatch -> Delay_ovid e = Delay e.
Proof.
  unfold Delay, Delay_ovid.
  destruct (nonempty (FromDelay e) && nonempty (ToDelay e)
            && negb (String.eqb (FromDelay e) (ToDelay e)));
    [intros H; now elim H | reflexivity].
Qed.

Example Delay_ovid_conflict :
  Delay_ovid (entitlement_with_delays "-1Y" "-2Y") = ParseDelay "-1Y".
Proof. reflexivity. Qed.

(** ** [CombineDatum] *)

Lemma rune_count_zeros_app (k : nat) (s : string) :
  RuneCountInString (zeros k +:+ s) = (k + RuneCountInString s)%nat.
Proof.
  unfold RuneCountInString. induction k as [|k IH]; [reflexivity|].
  simpl. rewrite IH. reflexivity.
Qed.

Lemma fmt_pad0_zero_padded (w : nat) (s : string) :
  zero_padded w s (fmt_pad0 w s).
Proof.
  exists (w - RuneCountInString s)%nat. split; [reflexivity|].
  unfold fmt_pad0. rewrite rune_count_zeros_app. lia.
Qed.

(** The padding relation determines the padded string. *)
Lemma zero_padded_unique (w : nat) (s p1 p2 : string) :
  zero_padded w s p1 -> zero_padded w s p2 -> p1 = p2.
Proof.
  intros (k1 & -> & H1) (k2 & -> & H2).
  rewrite rune_count_zeros_app in H1, H2.
  assert (k1 = k2) as -> by lia. reflexivity.
Qed.

(** C5: [CombineDatum] returns the sentinel [empty] exactly when year,
    volume and issue are all empty and the sentinel is not; in every
    other case it returns year zero-padded to 4, volume zero-padded to
    6 and issue zero-padded to 6, concatenated. *)
Theorem CombineDatum_spec (year volume issue empty : string) :
  (year = "" /\ volume = "" /\ issue = "" /\ empty <> "" ->
     CombineDatum year volume issue empty = empty) /\
  (~ (year = "" /\ volume = "" /\ issue = "" /\ empty <> "") ->
     exists py pv pi,
       zero_padded 4 year py /\ zero_padded 6 volume pv /\
       zero_padded 6 issue pi /\
       CombineDatum year volume issue empty = py +:+ pv +:+ pi).
Proof.
  unfold CombineDatum. split.
  - intros (-> & -> & -> & He). apply nonempty_true in He.
    unfold nonempty in He. simpl. rewrite He. reflexivity.
  - intros Hnot.
    destruct (String.eqb year "" && String.eqb volume "" && String.eqb issue ""
              && negb (String.eqb empty "")) eqn:Hc.
    + exfalso. apply Hnot.
      repeat (apply andb_prop in Hc as [Hc ?]).
      repeat split; try (now apply String.eqb_eq).
      now apply nonempty_true.
    + exists (fmt_pad0 4 year), (fmt_pad0 6 volume), (fmt_pad0 6 issue).
      repeat split; try apply fmt_pad0_zero_padded.
Qed.

Lemma CombineDatum_spec_witness :
  CombineDatum "" "" "" HighDatum = HighDatum /\
  exists py pv pi,
    zero_padded 4 "2010" py /\ zero_padded 6 "10" pv /\ zero_padded 6 "5" pi /\
    CombineDatum "2010" "10" "5" "" = py +:+ pv +:+ pi.
Proof.
  split.
  - apply (proj1 (CombineDatum_spec "" "" "" HighDatum)).
    repeat split. discriminate.
  - apply (proj2 (CombineDatum_spec "2010" "10" "5" "")).
    intros (H & _). discriminate H.
Defined.

Example CombineDatum_2010_10_5 :
  CombineDatum "2010" "10" "5" "" = "2010000010000005".
Proof. reflexivity. Qed.

Example CombineDatum_all_empty : CombineDatum "" "" "" "" = LowDatum.
Proof. reflexivity. Qed.

(** ** Order preservation *)

Lemma is_digit_ascii (c : ascii) : is_digit c = true -> byte_val c < 128.
Proof. unfold is_digit. lia. Qed.

Lemma rune_count_digits (s : string) :
  all_digits s = true -> RuneCountInString s = String.length s.
Proof.
  unfold RuneCountInString. induction s as [|c s IH]; [reflexivity|].
  simpl. intros H. apply andb_prop in H as [Hc Hs].
  apply is_digit_ascii in Hc. unfold rune_size.
  assert (Z.ltb (byte_val c) 128 = true) as -> by lia.
  simpl. rewrite (IH Hs). reflexivity.
Qed.

Lemma length_append (a b : string) :
  String.length (a +:+ b) = (String.length a + String.length b)%nat.
Proof. induction a as [|c a IH]; simpl; [reflexivity | now rewrite IH]. Qed.

Lemma length_zeros (k : nat) : String.length (zeros k) = k.
Proof. induction k as [|k IH]; simpl; [reflexivity | now rewrite IH]. Qed.

Lemma all_digits_append (a b : string) :
  all_digits (a +:+ b) = all_digits a && all_digits b.
Proof.
  induction a as [|c a IH]; simpl; [reflexivity|].
  rewrite IH. now rewrite andb_assoc.
Qed.

Lemma all_digits_zeros (k : nat) : all_digits (zeros k) = true.
Proof. induction k as [|k IH]; simpl; [reflexivity | exact IH]. Qed.

Lemma digits_val_append (a b : string) : forall acc,
  digits_val acc (a +:+ b) = digits_val (digits_val acc a) b.
Proof. induction a as [|c a IH]; intros acc; simpl; [reflexivity | apply IH]. Qed.

Lemma num_append (a b : string) :
  num (a +:+ b) = num a * 10 ^ Z.of_nat (String.length b) + num b.
Proof.
  unfold num at 1. rewrite digits_val_append. apply digits_val_acc.
Qed.

Lemma num_zeros (k : nat) : num (zeros k) = 0.
Proof.
  unfold num. induction k as [|k IH]; simpl; [reflexivity | exact IH].
Qed.

(** A padded numeric component: exactly [w] digits, same value. *)
Lemma fmt_pad0_numeric (w : nat) (s : string) :
  numeric w s ->
  all_digits (fmt_pad0 w s) = true /\
  String.length (fmt_pad0 w s) = w /\
  num (fmt_pad0 w s) = num s.
Proof.
  intros [Hd Hl]. unfold fmt_pad0. rewrite (rune_count_digits s Hd).
  repeat split.
  - rewrite all_digits_append, all_digits_zeros, Hd. reflexivity.
  - rewrite length_append, length_zeros. lia.
  - rewrite num_append, num_zeros. lia.
Qed.

(** On digit strings of one length the bytewise order is the numeric
    order. *)
Lemma compare_digits (a : string) : forall b,
  all_digits a = true -> all_digits b = true ->
  String.length a = String.length b ->
  String.compare a b = (num a ?= num b).
Proof.
  induction a as [|c a IH]; intros [|d b] Ha Hb Hl; try discriminate.
  - reflexivity.
  - simpl in Ha, Hb, Hl. apply andb_prop in Ha as [Hc Ha].
    apply andb_prop in Hb as [Hd Hb]. injection Hl as Hl.
    pose proof (num_bounds a Ha) as Hna. pose proof (num_bounds b Hb) as Hnb.
    rewrite Hl in Hna.
    unfold num. cbn [String.compare digits_val].
    rewrite (digits_val_acc a), (digits_val_acc b), Hl.
    set (p := 10 ^ Z.of_nat (String.length b)) in *.
    unfold Ascii.compare. unfold is_digit in Hc, Hd.
    unfold digit_val, byte_val in *.
    rewrite <- N2Z.inj_compare.
    destruct (Z.compare_spec (Z.of_N (N_of_ascii c)) (Z.of_N (N_of_ascii d)))
      as [Heq | Hlt | Hgt].
    + rewrite (IH b Ha Hb Hl). rewrite Heq.
      symmetry. destruct (Z.compare_spec (num a) (num b)).
      * apply Z.compare_eq_iff. lia.
      * apply Z.compare_lt_iff. lia.
      * apply Z.compare_gt_iff. lia.
    + symmetry. apply Z.compare_lt_iff. nia.
    + symmetry. apply Z.compare_gt_iff. nia.
Qed.


Lemma CombineDatum_no_sentinel (year volume issue : string) :
  CombineDatum year volume issue "" = Sprintf_04s_06s_06s year volume issue.
Proof.
  unfold CombineDatum. simpl. rewrite andb_false_r. reflexivity.
Qed.

(** The datum of numeric components is a 16-digit string whose value
    is [year * 10^12 + volume * 10^6 + issue]. *)
Lemma datum_value (year volume issue : string) :
  numeric 4 year -> numeric 6 volume -> numeric 6 issue ->
  let d := CombineDatum year volume issue "" in
  all_digits d = true /\ String.length d = 16%nat /\
  num d = num year * 1000000000000 + num volume * 1000000 + num issue /\
  0 <= num year /\ 0 <= num volume < 1000000 /\ 0 <= num issue < 1000000.
Proof.
  intros Hy Hv Hi d. subst d. rewrite CombineDatum_no_sentinel.
  unfold Sprintf_04s_06s_06s.
  destruct (fmt_pad0_numeric 4 year Hy) as (Dy & Ly & Ny).
  destruct (fmt_pad0_numeric 6 volume Hv) as (Dv & Lv & Nv).
  destruct (fmt_pad0_numeric 6 issue Hi) as (Di & Li & Ni).
  pose proof (num_bounds _ Dy) as By. pose proof (num_bounds _ Dv) as Bv.
  pose proof (num_bounds _ Di) as Bi.
  rewrite Ly, Ny in By. rewrite Lv, Nv in Bv. rewrite Li, Ni in Bi.
  change (10 ^ Z.of_nat 6) with 1000000 in Bv, Bi.
  repeat split; try lia.
  - rewrite !all_digits_append, Dy, Dv, Di. reflexivity.
  - rewrite !length_append, Ly, Lv, Li. reflexivity.
  - rewrite !num_append, !length_append, Lv, Li, Ny, Nv, Ni.
    change (10 ^ Z.of_nat (6 + 6)) with 1000000000000.
    change (10 ^ Z.of_nat 6) with 1000000. lia.
Qed.

(** C6: with an empty sentinel and numeric components of at most 4, 6
    and 6 digits, one (year, volume, issue) triple precedes another in
    the numeric lexicographic order if and only if its datum precedes
    the other's in the bytewise order of strings. *)
Theorem CombineDatum_order_preserving (y1 v1 i1 y2 v2 i2 : string) :
  numeric 4 y1 -> numeric 6 v1 -> numeric 6 i1 ->
  numeric 4 y2 -> numeric 6 v2 -> numeric 6 i2 ->
  (tuple_lt (num y1, num v1, num i1) (num y2, num v2, num i2) <->
   str_lt (CombineDatum y1 v1 i1 "") (CombineDatum y2 v2 i2 "") = true).
Proof.
  intros Hy1 Hv1 Hi1 Hy2 Hv2 Hi2.
  destruct (datum_value y1 v1 i1 Hy1 Hv1 Hi1) as (D1 & L1 & N1 & B1).
  destruct (datum_value y2 v2 i2 Hy2 Hv2 Hi2) as (D2 & L2 & N2 & B2).
  unfold str_lt, String.ltb.
  rewrite (compare_digits _ _ D1 D2) by congruence.
  rewrite N1, N2. unfold tuple_lt.
  destruct (Z.compare_spec
              (num y1 * 1000000000000 + num v1 * 1000000 + num i1)
              (num y2 * 1000000000000 + num v2 * 1000000 + num i2));
    split; intros H'; try discriminate; try reflexivity; lia.
Qed.

Lemma CombineDatum_order_preserving_witness :
  tuple_lt (num "2010", num "9", num "12") (num "2010", num "10", num "1") <->
  str_lt (CombineDatum "2010" "9" "12" "") (CombineDatum "2010" "10" "1" "") = true.
Proof.
  apply (CombineDatum_order_preserving "2010" "9" "12" "2010" "10" "1");
    split; simpl; first [reflexivity | lia].
Defined.


(** ** [HoldingsMap] *)

Lemma register_lookup (item : Holding) (h : gmap string Holding) (id k : string) :
  register item h id !! k = if names_issn k id then Some item else h !! k.
Proof.
  unfold register, names_issn.
  destruct (ISSNPattern_MatchString (TrimSpace id)); rewrite ?andb_false_r; [|reflexivity].
  rewrite andb_true_r.
  destruct (String.eqb_spec (TrimSpace id) k) as [-> | Hne].
  - apply lookup_insert_eq.
  - now apply lookup_insert_ne.
Qed.

Lemma register_all_lookup (item : Holding) (ids : list string) (k : string) :
  forall h, register_all item ids h !! k =
            if existsb (names_issn k) ids then Some item else h !! k.
Proof.
  unfold register_all. induction ids as [|id ids IH]; intros h; simpl.
  - reflexivity.
  - rewrite IH, register_lookup.
    destruct (names_issn k id), (existsb (names_issn k) ids); reflexivity.
Qed.

Lemma HoldingsMap_loop_lookup (decoder : Decoder) (k : string) :
  forall h, HoldingsMap_loop decoder h !! k =
            match last_lister k (holdings_of decoder) with
            | Some item => Some item
            | None => h !! k
            end.
Proof.
  induction decoder as [|[t item] rest IH]; intros h; [reflexivity|].
  destruct t; simpl; try apply IH.
  destruct (String.eqb Local "holding"); [|apply IH].
  simpl. rewrite IH. destruct (last_lister k (holdings_of rest)); [reflexivity|].
  rewrite !register_all_lookup. unfold lists_issn. rewrite existsb_app.
  destruct (existsb (names_issn k) (EISSN item)),
           (existsb (names_issn k) (PISSN item)); reflexivity.
Qed.

Lemma last_lister_None (k : string) (hs : list Holding) :
  last_lister k hs = None <-> Forall (fun h => lists_issn k h = false) hs.
Proof.
  induction hs as [|item rest IH]; simpl.
  - split; [constructor | reflexivity].
  - destruct (last_lister k rest) eqn:Hl.
    + split; [discriminate|]. intros H. inversion H; subst.
      apply IH in H3. discriminate.
    + destruct (lists_issn k item) eqn:Hi.
      * split; [discriminate|]. intros H. inversion H; congruence.
      * split; [|reflexivity]. intros _. constructor; [assumption|].
        now apply IH.
Qed.

Lemma last_lister_Some (k : string) (hs : list Holding) (item : Holding) :
  last_lister k hs = Some item <->
  exists pre post, hs = pre ++ item :: post /\ lists_issn k item = true /\
                   Forall (fun h => lists_issn k h = false) post.
Proof.
  split.
  - revert item. induction hs as [|x rest IH]; intros item; simpl; [discriminate|].
    destruct (last_lister k rest) eqn:Hl.
    + intros [= ->]. destruct (IH item eq_refl) as (pre & post & -> & Hi & Hp).
      exists (x :: pre), post. auto.
    + destruct (lists_issn k x) eqn:Hx; [|discriminate].
      intros [= ->]. exists [], rest. repeat split; trivial.
      now apply last_lister_None.
  - intros (pre & post & -> & Hi & Hp). induction pre as [|x pre IH]; simpl.
    + apply last_lister_None in Hp. rewrite Hp, Hi. reflexivity.
    + rewrite IH. reflexivity.
Qed.

Lemma lists_issn_pattern (k : string) (item : Holding) :
  lists_issn k item = true -> ISSNPattern_MatchString k = true.
Proof.
  unfold lists_issn. rewrite existsb_exists. intros (id & _ & H).
  unfold names_issn in H. apply andb_prop in H as [H1 H2].
  apply String.eqb_eq in H1. congruence.
Qed.

(** C9: in the map built by [HoldingsMap], an ISSN [k] is bound to
    [item] exactly when [item] is the last decoded holding that lists
    [k] among its e-ISSN and print-ISSN strings (trimmed, and of the
    canonical form); [k] is unbound exactly when no holding lists it;
    and every bound key has the canonical form.  Identifiers that fail
    the pattern bind nothing and raise no error. *)
Theorem HoldingsMap_spec (decoder : Decoder) (k : string) :
  (forall item,
     HoldingsMap decoder !! k = Some item <->
     exists pre post,
       holdings_of decoder = pre ++ item :: post /\ lists_issn k item = true /\
       Forall (fun h => lists_issn k h = false) post) /\
  (HoldingsMap decoder !! k = None <->
     Forall (fun h => lists_issn k h = false) (holdings_of decoder)) /\
  (is_Some (HoldingsMap decoder !! k) -> ISSNPattern_MatchString k = true).
Proof.
  unfold HoldingsMap.
  assert (HoldingsMap_loop decoder ∅ !! k = last_lister k (holdings_of decoder)) as ->.
  { rewrite HoldingsMap_loop_lookup, lookup_empty.
    destruct (last_lister k (holdings_of decoder)); reflexivity. }
  split; [|split].
  - intros item. apply last_lister_Some.
  - apply last_lister_None.
  - intros [item H]. apply last_lister_Some in H as (_ & _ & _ & H & _).
    eapply lists_issn_pattern; eauto.
Qed.

Lemma HoldingsMap_spec_witness :
  HoldingsMap two_holdings !! "1234-5678" = Some (holding_with_issns 2 ["1234-5678"] []) /\
  HoldingsMap two_holdings !! "bogus" = None /\
  ISSNPattern_MatchString "8765-4321" = true.
Proof.
  split; [|split].
  - apply (proj1 (HoldingsMap_spec two_holdings "1234-5678")).
    exists [holding_with_issns 1 ["1234-5678"] [" 8765-4321 "; "bogus"]], [].
    repeat split; constructor.
  - apply (proj1 (proj2 (HoldingsMap_spec two_holdings "bogus"))).
    repeat constructor.
  - apply (proj2 (proj2 (HoldingsMap_spec two_holdings "8765-4321"))).
    exists (holding_with_issns 1 ["1234-5678"] [" 8765-4321 "; "bogus"]).
    vm_compute. reflexivity.
Defined.

End HoldingsFacts.

(* ===================================================================== *)
(** * Properties of package span *)
(* ===================================================================== *)

Module SpanFacts.
Import Span SpanSpec.

Section FilterFacts.

Variable License : Type.
Variable Covers : License -> string -> bool.
Variable Wall : License -> Time -> Time.

Local Abbreviation Filter := (Filter License).
Local Abbreviation Apply := (Apply License Covers Wall).
Local Abbreviation CoveredAndValid := (CoveredAndValid License Covers Wall).
Local Abbreviation Tags := (Tags License Covers Wall).
Local Abbreviation Tags_range := (Tags_range License Covers Wall).
Local Abbreviation Tags_filters := (Tags_filters License Covers Wall).
Local Abbreviation covering_released := (covering_released License Covers Wall).
Local Abbreviation accepted := (accepted License Covers Wall).

Lemma CoveredAndValid_loop_existsb (Ref : Time) (signature : string)
    (licenses : list License) :
  CoveredAndValid_loop License Covers Wall Ref signature licenses =
  existsb (covering_released Ref signature) licenses.
Proof.
  induction licenses as [|l ls IH]; simpl; [reflexivity|].
  unfold SpanSpec.covering_released at 1.
  destruct (Covers l signature); simpl; [|exact IH].
  destruct (After Ref (Wall l Ref)); simpl; [reflexivity | exact IH].
Qed.

Lemma any_issn_existsb (p : string -> bool) (issns : list string) :
  any_issn p issns = existsb p issns.
Proof.
  induction issns as [|x xs IH]; simpl; [reflexivity|].
  destruct (p x); simpl; [reflexivity | exact IH].
Qed.

Lemma CoveredAndValid_true (Ref : Time) (Table : gmap string (list License))
    (signature issn : string) :
  CoveredAndValid Ref Table signature issn = true <->
  exists licenses license,
    Table !! issn = Some licenses /\ license ∈ licenses /\
    covering_released Ref signature license = true.
Proof.
  unfold Span.CoveredAndValid. destruct (Table !! issn) as [ls|].
  - rewrite CoveredAndValid_loop_existsb, existsb_exists. split.
    + intros (l & Hin & Hl). exists ls, l. rewrite list_elem_of_In. auto.
    + intros (ls' & l & [= <-] & Hin & Hl). exists l.
      rewrite <- list_elem_of_In. auto.
  - split; [discriminate|]. intros (? & ? & ? & _). discriminate.
Qed.

Lemma HoldingFilter_Apply_true (Ref : Time) (Table : gmap string (list License))
    (is_ : IntermediateSchema) :
  Apply (HoldingFilter License Ref Table) is_ = true <->
  exists issn licenses license,
    issn ∈ ISSN is_ ++ EISSN is_ /\ Table !! issn = Some licenses /\
    license ∈ licenses /\
    covering_released Ref (signature_of is_) license = true.
Proof.
  cbn [Span.Apply]. unfold HoldingFilter_Apply.
  rewrite any_issn_existsb, existsb_exists. fold (signature_of is_). split.
  - intros (issn & Hin & H). apply CoveredAndValid_true in H as (ls & l & H).
    exists issn, ls, l. rewrite list_elem_of_In. tauto.
  - intros (issn & ls & l & Hin & H). exists issn.
    rewrite <- list_elem_of_In. split; [assumption|].
    apply CoveredAndValid_true. eauto.
Qed.

(** C4: an ISSN without an entry in the table is never covered,
    whatever the signature; and [HoldingFilter.Apply] rejects a record
    none of whose ISSN or e-ISSN values has a license that covers the
    record's signature and whose wall has been passed -- so in
    particular a record all of whose ISSNs are absent from the table. *)
Theorem HoldingFilter_fail_closed (Ref : Time)
    (Table : gmap string (list License)) :
  (forall signature issn,
     Table !! issn = None -> CoveredAndValid Ref Table signature issn = false) /\
  (forall is_,
     (forall issn licenses license,
        issn ∈ ISSN is_ ++ EISSN is_ -> Table !! issn = Some licenses ->
        license ∈ licenses ->
        covering_released Ref (signature_of is_) license = false) ->
     Apply (HoldingFilter License Ref Table) is_ = false) /\
  (forall is_,
     (forall issn, issn ∈ ISSN is_ ++ EISSN is_ -> Table !! issn = None) ->
     Apply (HoldingFilter License Ref Table) is_ = false).
Proof.
  assert (forall is_,
     (forall issn licenses license,
        issn ∈ ISSN is_ ++ EISSN is_ -> Table !! issn = Some licenses ->
        license ∈ licenses ->
        covering_released Ref (signature_of is_) license = false) ->
     Apply (HoldingFilter License Ref Table) is_ = false) as Hnone.
  { intros is_ H. apply not_true_is_false. intros Ht.
    apply HoldingFilter_Apply_true in Ht as (issn & ls & l & Hi & Ht & Hl & Hc).
    rewrite (H issn ls l Hi Ht Hl) in Hc. discriminate. }
  split; [|split].
  - intros signature issn H. unfold Span.CoveredAndValid. rewrite H. reflexivity.
  - exact Hnone.
  - intros is_ H. apply Hnone. intros issn ls l Hi Ht _.
    rewrite (H issn Hi) in Ht. discriminate.
Qed.

(** ** The tagger *)

Lemma elem_of_Tags_filters (is_ : IntermediateSchema) (isil : string)
    (filters : list Filter) (x : string) :
  forall isils : StringSet,
    x ∈ Tags_filters is_ isil filters isils <->
    x ∈ isils \/ (x = isil /\ accepted is_ filters).
Proof.
  unfold Span.Tags_filters, SpanSpec.accepted.
  induction filters as [|f fs IH]; intros isils; simpl.
  - split; [auto|]. intros [H | (_ & f & Hf & _)]; [assumption|].
    inversion Hf.
  - rewrite IH. destruct (Apply f is_) eqn:Hf.
    + unfold Add. rewrite elem_of_union, elem_of_singleton. split.
      * intros [[-> | H] | (-> & g & Hg & Ha)]; eauto.
        -- right. split; [reflexivity|]. exists f. split; [left|assumption].
        -- right. split; [reflexivity|]. exists g. split; [now right|assumption].
      * intros [H | (-> & g & Hg & Ha)]; auto.
    + split.
      * intros [H | (-> & g & Hg & Ha)]; auto.
        right. split; [reflexivity|]. exists g. split; [now right|assumption].
      * intros [H | (-> & g & Hg & Ha)]; auto.
        apply elem_of_cons in Hg as [-> | Hg]; [congruence|].
        right. split; [reflexivity|]. eauto.
Qed.

Lemma elem_of_fold_entries (is_ : IntermediateSchema)
    (entries : list (string * list Filter)) (x : string) :
  forall isils : StringSet,
    x ∈ fold_left (fun acc e => Tags_filters is_ (fst e) (snd e) acc)
                  entries isils <->
    x ∈ isils \/ exists filters, (x, filters) ∈ entries /\ accepted is_ filters.
Proof.
  induction entries as [|[isil fs] es IH]; intros isils; simpl.
  - split; [auto|]. intros [H | (fs & Hin & _)]; [assumption | inversion Hin].
  - rewrite IH, elem_of_Tags_filters. split.
    + intros [[H | (-> & Ha)] | (fs' & Hin & Ha)]; auto.
      * right. exists fs. split; [left | assumption].
      * right. exists fs'. split; [now right | assumption].
    + intros [H | (fs' & Hin & Ha)]; auto.
      apply elem_of_cons in Hin as [[= -> ->] | Hin]; eauto.
Qed.

Lemma elem_of_Tags_range (is_ : IntermediateSchema)
    (entries : list (string * list Filter)) (x : string) :
  x ∈ Tags_range is_ entries <->
  exists filters, (x, filters) ∈ entries /\ accepted is_ filters.
Proof.
  unfold Span.Tags_range. rewrite elem_of_fold_entries.
  unfold NewStringSet. split; [|auto].
  intros [H | H]; [|assumption]. now apply not_elem_of_empty in H.
Qed.

(** C8: [Tags] returns, without duplicates, exactly the institutions
    that have at least one filter accepting the record; the set
    collected is the same for every order in which the entries of the
    tagger are visited; and an institution whose filters all reject
    the record -- one without filters among them -- is not returned. *)
Theorem Tags_spec (t : gmap string (list Filter)) (is_ : IntermediateSchema) :
  (forall isil,
     isil ∈ Tags t is_ <->
     exists filters, t !! isil = Some filters /\ accepted is_ filters) /\
  NoDup (Tags t is_) /\
  (forall entries,
     entries ≡ₚ map_to_list t ->
     Tags_range is_ entries = Tags_range is_ (map_to_list t)) /\
  (forall isil filters,
     t !! isil = Some filters ->
     Forall (fun f => Apply f is_ = false) filters ->
     isil ∉ Tags t is_).
Proof.
  assert (forall isil,
     isil ∈ Tags t is_ <->
     exists filters, t !! isil = Some filters /\ accepted is_ filters) as Hmem.
  { intros isil. unfold Span.Tags, Values.
    rewrite elem_of_elements, elem_of_Tags_range.
    split; intros (fs & H & Ha); exists fs; split; trivial;
      now apply elem_of_map_to_list. }
  split; [exact Hmem|]. split; [|split].
  - unfold Span.Tags, Values. apply NoDup_elements.
  - intros entries Hperm. apply set_eq. intros x.
    rewrite !elem_of_Tags_range. split; intros (fs & H & Ha); exists fs;
      split; trivial.
    + now rewrite <- Hperm.
    + now rewrite Hperm.
  - intros isil filters Ht Hall Hin.
    apply Hmem in Hin as (fs & Ht' & f & Hf & Ha).
    assert (fs = filters) as -> by congruence.
    rewrite Forall_forall in Hall. rewrite (Hall f Hf) in Ha. discriminate.
Qed.

End FilterFacts.

(** ** Instances *)

Example end_to_end_tagged :
  Tags range_license range_Covers range_Wall sample_tagger record_2010 = ["ISIL-1"].
Proof. vm_compute. reflexivity. Qed.

Lemma HoldingFilter_fail_closed_witness :
  CoveredAndValid range_license range_Covers range_Wall 100 table_other
    "2010000010000005" "1234-5678" = false /\
  Apply range_license range_Covers range_Wall
    (HoldingFilter range_license 100 table_other) record_2010 = false.
Proof.
  split.
  - apply (proj1 (HoldingFilter_fail_closed range_license range_Covers range_Wall
                    100 table_other)).
    reflexivity.
  - apply (proj2 (proj2 (HoldingFilter_fail_closed range_license range_Covers
                           range_Wall 100 table_other))).
    intros issn Hin. simpl in Hin. apply list_elem_of_singleton in Hin as ->.
    reflexivity.
Defined.

Lemma Tags_spec_witness :
  "ISIL-1" ∈ Tags range_license range_Covers range_Wall sample_tagger record_2010 /\
  "ISIL-3" ∉ Tags range_license range_Covers range_Wall sample_tagger record_2010.
Proof.
  split.
  - apply (proj1 (Tags_spec range_license range_Covers range_Wall
                    sample_tagger record_2010)).
    exists [HoldingFilter range_license 100 table_2000_2020].
    split; [reflexivity|].
    exists (HoldingFilter range_license 100 table_2000_2020).
    split; [left | reflexivity].
  - apply (proj2 (proj2 (proj2 (Tags_spec range_license range_Covers range_Wall
                                  sample_tagger record_2010))) "ISIL-3" []).
    + reflexivity.
    + constructor.
Defined.

End SpanFacts.

(* ===================================================================== *)
(** * Properties of the batch pipeline *)
(* ===================================================================== *)

Module MainFacts.
Import Main MainSpec.

(** ** Reading lines *)

Lemma append_cons (c : ascii) (a b : string) :
  String c a +:+ b = String c (a +:+ b).
Proof. reflexivity. Qed.

Lemma append_assoc (a b c : string) : (a +:+ b) +:+ c = a +:+ (b +:+ c).
Proof.
  induction a as [|x a IH]; [reflexivity|].
  rewrite !append_cons, IH. reflexivity.
Qed.

Lemma lines_from_cur (r : string) : forall cur,
  lines_from cur r =
    match lines_from "" r with
    | [] => []
    | l :: ls => (cur +:+ l) :: ls
    end.
Proof.
  induction r as [|c r IH]; intros cur; simpl; [reflexivity|].
  destruct (Ascii.eqb c newline); [reflexivity|].
  rewrite (IH (cur +:+ String c "")), (IH ("" +:+ String c "")).
  destruct (lines_from "" r); [reflexivity|].
  rewrite append_assoc. reflexivity.
Qed.

(** A successful read yields the first line and leaves a shorter
    input; a read that meets the end of the input finds no line. *)
Lemma ReadString_spec (r : string) :
  match ReadString r with
  | (line, false, r') =>
      lines r = line :: lines r' /\ (String.length r' < String.length r)%nat
  | (_, true, _) => lines r = []
  end.
Proof.
  unfold lines. induction r as [|c r IH]; simpl; [reflexivity|].
  destruct (Ascii.eqb c newline) eqn:Hc.
  - split; [reflexivity | lia].
  - destruct (ReadString r) as [[line eof] r']. destruct eof.
    + rewrite lines_from_cur, IH. reflexivity.
    + destruct IH as [IH Hlen]. rewrite lines_from_cur, IH. split; [reflexivity | lia].
Qed.

Lemma lines_from_newline_free (p : string) : forall cur,
  newline_free p = true -> lines_from cur p = [].
Proof.
  induction p as [|c p IH]; intros cur H; simpl in *; [reflexivity|].
  apply andb_prop in H as [Hc Hp]. apply negb_true_iff in Hc.
  rewrite Hc. now apply IH.
Qed.

(** An unterminated tail adds no line. *)
Lemma lines_app_partial (content partial : string) :
  newline_free partial = true -> lines (content +:+ partial) = lines content.
Proof.
  intros Hp. unfold lines. generalize "" as cur.
  induction content as [|c r IH]; intros cur; simpl.
  - now apply lines_from_newline_free.
  - destruct (Ascii.eqb c newline); [f_equal|]; apply IH.
Qed.

(** ** The reader loop, line by line *)

Lemma reader_loop_steps (BatchSize : Z) (fuel : nat) :
  forall r i batch batches,
    (String.length r < fuel)%nat ->
    reader_loop fuel BatchSize r i batch batches =
    Some (reader_steps BatchSize (lines r) i batch batches).
Proof.
  induction fuel as [|fuel IH]; intros r i batch batches Hlen; [lia|].
  cbn [reader_loop]. pose proof (ReadString_spec r) as Hr.
  destruct (ReadString r) as [[line eof] r']. destruct eof.
  - rewrite Hr. reflexivity.
  - destruct Hr as [Hr Hl]. rewrite Hr. cbn [reader_steps].
    destruct (i =? BatchSize); apply IH; lia.
Qed.

(** The reader always comes to an end. *)
Lemma reader_total (BatchSize : Z) (content : string) :
  reader BatchSize content =
  Some (reader_steps BatchSize (lines content) 1 (make BatchSize) []).
Proof. unfold reader. apply reader_loop_steps. lia. Qed.

(** Whatever the counter does, the batches handed off hold, in order,
    what the first batch started with followed by the lines read. *)
Lemma reader_steps_concat (BatchSize : Z) (ls : list string) :
  forall i batch batches,
    concat (reader_steps BatchSize ls i batch batches) =
    concat batches ++ batch ++ ls.
Proof.
  induction ls as [|l ls IH]; intros i batch batches; simpl.
  - rewrite concat_app. simpl. now rewrite !app_nil_r.
  - destruct (i =? BatchSize); rewrite IH.
    + rewrite concat_app. simpl. rewrite app_nil_r, <- !app_assoc. reflexivity.
    + rewrite <- !app_assoc. reflexivity.
Qed.

Lemma reader_concat (BatchSize : Z) (content : string) :
  exists batches, reader BatchSize content = Some batches /\
                  concat batches = make BatchSize ++ lines content.
Proof.
  eexists. split; [apply reader_total|]. now rewrite reader_steps_concat.
Qed.

(** ** [NewListFilter], line by line *)

Lemma NewListFilter_loop_lines (fuel : nat) :
  forall r set,
    (String.length r < fuel)%nat ->
    Span.NewListFilter_loop fuel r set = Some (fold_left add_line (lines r) set).
Proof.
  induction fuel as [|fuel IH]; intros r set Hlen; [lia|].
  cbn [Span.NewListFilter_loop]. pose proof (ReadString_spec r) as Hr.
  destruct (ReadString r) as [[line eof] r']. destruct eof.
  - rewrite Hr. reflexivity.
  - destruct Hr as [Hr Hl]. rewrite Hr. cbn [fold_left]. unfold add_line at 2.
    destruct (String.eqb (TrimSpace line) ""); apply IH; lia.
Qed.

Lemma NewListFilter_total (r : string) :
  Span.NewListFilter r = Some (fold_left add_line (lines r) Span.NewStringSet).
Proof. unfold Span.NewListFilter. apply NewListFilter_loop_lines. lia. Qed.

(** ** The workers and the collector *)

Section WorkerFacts.

Variable Document : Type.
Variable Schema : Type.
Variable Unmarshal : string -> Document.
Variable ToSolrSchema : Document -> Schema * bool.
Variable Institutions :
  Document -> gmap string (gmap string Holdings.Holding) -> list string.
Variable SetTags : Schema -> list string -> Schema.
Variable Marshal : Schema -> string.

Local Abbreviation worker_line :=
  (worker_line Document Schema Unmarshal ToSolrSchema Institutions SetTags Marshal).
Local Abbreviation worker_batch :=
  (worker_batch Document Schema Unmarshal ToSolrSchema Institutions SetTags Marshal).
Local Abbreviation sequential :=
  (sequential Document Schema Unmarshal ToSolrSchema Institutions SetTags Marshal).
Local Abbreviation BatchedLDJProcessor :=
  (BatchedLDJProcessor Document Schema Unmarshal ToSolrSchema Institutions SetTags Marshal).
Local Abbreviation BatchedLDJProcessor_writes :=
  (BatchedLDJProcessor_writes Document Schema Unmarshal ToSolrSchema Institutions SetTags Marshal).

Lemma worker_batch_concat (options : Options) (batches : list (list string)) :
  concat (map (worker_batch options) batches) =
  worker_batch options (concat batches).
Proof.
  unfold Main.worker_batch. induction batches as [|b bs IH]; simpl; [reflexivity|].
  rewrite IH, flat_map_app. reflexivity.
Qed.

(** A line whose transformation reports an error is skipped when
    [IgnoreErrors] is set, and the lines after it are processed. *)
Lemma worker_batch_skips (options : Options) (l : string) (ls : list string) :
  IgnoreErrors options = true ->
  snd (ToSolrSchema (Unmarshal l)) = true ->
  worker_batch options (l :: ls) = worker_batch options ls.
Proof.
  intros Hi He. unfold Main.worker_batch. simpl. unfold Main.worker_line at 1.
  destruct (ToSolrSchema (Unmarshal l)) as [schema err]. simpl in He.
  rewrite He, Hi. reflexivity.
Qed.

(** Every merge of the workers' sequences is a rearrangement of
    their concatenation. *)
Lemma merged_Permutation (seqs : list (list string)) (docs : list string) :
  merged seqs docs -> docs ≡ₚ concat seqs.
Proof.
  induction 1 as [seqs Hall | pre b q post docs Hm IH].
  - induction Hall as [|q seqs -> _ IH]; simpl; [reflexivity | exact IH].
  - rewrite IH, !concat_app. simpl. apply Permutation_middle.
Qed.

(** The run that takes the batches in order exists among the merges. *)
Lemma merged_in_order (seqs : list (list string)) :
  merged seqs (concat seqs).
Proof.
  induction seqs as [|q seqs IH]; simpl.
  - constructor. constructor.
  - induction q as [|b q IHq]; simpl.
    + clear - IH. remember (concat seqs) as docs eqn:E. clear E.
      induction IH as [seqs Hall | pre b q post docs Hm IHm].
      * constructor. constructor; [reflexivity | assumption].
      * apply (merged_step ([] :: pre)). exact IHm.
    + apply (merged_step [] b q seqs). exact IHq.
Qed.

(** What the pipeline writes: the documents of the sequential
    reference, preceded by those of the [BatchSize] empty strings the
    first batch starts with. *)
Lemma BatchedLDJProcessor_in_order (options : Options) (content : string) :
  0 <= BatchSize options -> 0 < NumWorkers options ->
  BatchedLDJProcessor options content =
  Some (Writes (worker_batch options (make (BatchSize options))
                ++ sequential options (lines content))).
Proof.
  intros HB HW. unfold Main.BatchedLDJProcessor.
  assert (Z.ltb (BatchSize options) 0 = false) as -> by lia.
  assert (Z.leb (NumWorkers options) 0 = false) as -> by lia.
  rewrite reader_total, worker_batch_concat, reader_steps_concat.
  unfold Main.worker_batch, Main.sequential. simpl.
  rewrite flat_map_app. reflexivity.
Qed.

Lemma BatchedLDJProcessor_writes_Permutation (options : Options)
    (content : string) (docs : list string) :
  BatchedLDJProcessor_writes options content docs ->
  docs ≡ₚ worker_batch options (make (BatchSize options))
          ++ sequential options (lines content).
Proof.
  intros (HB & HW & batches & Hr & Hm).
  rewrite reader_total in Hr. injection Hr as <-.
  apply merged_Permutation in Hm. rewrite Hm.
  rewrite worker_batch_concat, reader_steps_concat.
  unfold Main.worker_batch, Main.sequential. simpl.
  rewrite flat_map_app. reflexivity.
Qed.

End WorkerFacts.

(** ** The reader's batches *)

(** C2: with a batch size of 2 and four input lines the reader hands
    off a first batch of four entries, two of them the empty strings
    the slice was created with, then batches of a single line, then an
    empty batch -- not two batches of two lines each. *)
Theorem reader_batches_diverge :
  reader 2 (line "a" +:+ line "b" +:+ line "c" +:+ line "d") =
  Some [ [""; ""; line "a"; line "b"]; [line "c"]; [line "d"]; [] ].
Proof. vm_compute. reflexivity. Qed.

Example reader_batch_size_1 :
  reader 1 (line "a" +:+ line "b" +:+ line "c") =
  Some [ [""; line "a"]; [line "b"; line "c"] ].
Proof. vm_compute. reflexivity. Qed.

Example reader_no_input : reader 3 "" = Some [ [""; ""; ""] ].
Proof. vm_compute. reflexivity. Qed.

(** C1: on an input without lines, with a batch size of 1, one worker
    and [IgnoreErrors] off, the sequential reference produces nothing,
    while the pipeline writes one document: the one made from the empty
    string the first batch was created with. *)
Theorem BatchedLDJProcessor_empty_input
    (Document Schema : Type) (Unmarshal : string -> Document)
    (ToSolrSchema : Document -> Schema * bool)
    (Institutions :
       Document -> gmap string (gmap string Holdings.Holding) -> list string)
    (SetTags : Schema -> list string -> Schema) (Marshal : Schema -> string)
    (holdings : gmap string (gmap string Holdings.Holding)) (verbose : bool) :
  let options := {| Holdings := holdings; IgnoreErrors := false;
                    Verbose := verbose; NumWorkers := 1; BatchSize := 1 |} in
  sequential Document Schema Unmarshal ToSolrSchema Institutions SetTags Marshal
    options (lines "") = [] /\
  BatchedLDJProcessor Document Schema Unmarshal ToSolrSchema Institutions
    SetTags Marshal options "" =
  Some (Writes [ Marshal (SetTags (fst (ToSolrSchema (Unmarshal "")))
                                  (Institutions (Unmarshal "") holdings)) ]).
Proof.
  intros options. split; [reflexivity|].
  rewrite BatchedLDJProcessor_in_order by (simpl; lia).
  simpl. unfold Main.worker_line.
  destruct (ToSolrSchema (Unmarshal "")) as [schema err].
  simpl. rewrite andb_false_r. reflexivity.
Qed.

(** ** Unterminated final lines *)

(** C10: what follows the last newline of the input is read together
    with [io.EOF] and dropped: the reader of the pipeline hands off the
    same batches, the pipeline writes the same documents, and
    [NewListFilter] builds the same set, as on the input without that
    final, unterminated line. *)
Theorem unterminated_final_line_dropped (content partial : string) :
  newline_free partial = true ->
  (forall BatchSize, exists batches,
      reader BatchSize (content +:+ partial) = Some batches /\
      reader BatchSize content = Some batches /\
      concat batches = make BatchSize ++ lines content) /\
  (exists set,
      Span.NewListFilter (content +:+ partial) = Some set /\
      Span.NewListFilter content = Some set) /\
  (forall (Document Schema : Type) (Unmarshal : string -> Document)
          (ToSolrSchema : Document -> Schema * bool)
          (Institutions :
             Document -> gmap string (gmap string Holdings.Holding) -> list string)
          (SetTags : Schema -> list string -> Schema)
          (Marshal : Schema -> string) (options : Options),
      BatchedLDJProcessor Document Schema Unmarshal ToSolrSchema Institutions
        SetTags Marshal options (content +:+ partial) =
      BatchedLDJProcessor Document Schema Unmarshal ToSolrSchema Institutions
        SetTags Marshal options content).
Proof.
  intros Hp. pose proof (lines_app_partial content partial Hp) as Hl.
  split; [|split].
  - intros B. eexists. rewrite !reader_total, Hl.
    split; [reflexivity|]. split; [reflexivity|].
    now rewrite reader_steps_concat.
  - eexists. rewrite !NewListFilter_total, Hl. split; reflexivity.
  - intros. unfold Main.BatchedLDJProcessor. rewrite !reader_total, Hl.
    reflexivity.
Qed.

Lemma unterminated_final_line_dropped_witness :
  reader 2 (line "a" +:+ "b") = reader 2 (line "a") /\
  Span.NewListFilter (line "1234-5678" +:+ "8765-4321") =
  Span.NewListFilter (line "1234-5678").
Proof.
  split.
  - destruct (proj1 (unterminated_final_line_dropped (line "a") "b" eq_refl) 2)
      as (batches & H1 & H2 & _).
    rewrite H1, H2. reflexivity.
  - destruct (proj1 (proj2 (unterminated_final_line_dropped
                              (line "1234-5678") "8765-4321" eq_refl)))
      as (set & H1 & H2).
    rewrite H1, H2. reflexivity.
Defined.

End MainFacts.

(* ===================================================================== *)
(** * Further properties of package holdings *)
(* ===================================================================== *)

Module HoldingsMore.
Import Holdings HoldingsSpec HoldingsFacts.

(** ** [Licenses.Add] *)

Lemma Add_loop_elem_of (license : string) (vs : list string) :
  Add_loop license vs = true <-> license ∈ vs.
Proof.
  induction vs as [|v vs IH]; simpl.
  - split; [discriminate | intros H; inversion H].
  - destruct (String.eqb_spec v license) as [-> | Hne].
    + split; [intros _; left | reflexivity].
    + rewrite IH. split; [now right|].
      intros H. apply elem_of_cons in H as [-> | H]; [congruence | assumption].
Qed.

Lemma Licenses_Add_lookup (t : gmap string (list string)) (issn license : string) :
  default [] (Licenses_Add t issn license !! issn) =
  if Add_loop license (default [] (t !! issn)) then default [] (t !! issn)
  else default [] (t !! issn) ++ [license].
Proof.
  unfold Licenses_Add. destruct (Add_loop license (default [] (t !! issn)));
    [reflexivity|]. now rewrite lookup_insert_eq.
Qed.

Lemma Licenses_Add_keeps (t : gmap string (list string)) (issn license x : string) :
  x ∈ default [] (t !! issn) -> x ∈ default [] (Licenses_Add t issn license !! issn).
Proof.
  rewrite Licenses_Add_lookup.
  destruct (Add_loop license (default [] (t !! issn))); [auto|].
  intros H. apply elem_of_app. now left.
Qed.

Lemma Licenses_Add_stored (t : gmap string (list string)) (issn license : string) :
  license ∈ default [] (Licenses_Add t issn license !! issn).
Proof.
  rewrite Licenses_Add_lookup.
  destruct (Add_loop license (default [] (t !! issn))) eqn:Hc.
  - now apply Add_loop_elem_of.
  - apply elem_of_app. right. left.
Qed.

(** After [Add] the range is stored under the ISSN, behind the ranges
    that were there, which are kept in their order; the entries of all
    other ISSNs are untouched; and if no list of the table held a
    duplicate before, none does afterwards. *)
Theorem Licenses_Add_spec (t : gmap string (list string)) (issn license : string) :
  license ∈ default [] (Licenses_Add t issn license !! issn) /\
  default [] (t !! issn) `prefix_of` default [] (Licenses_Add t issn license !! issn) /\
  (forall other, other <> issn -> Licenses_Add t issn license !! other = t !! other) /\
  ((forall k vs, t !! k = Some vs -> NoDup vs) ->
   forall k vs, Licenses_Add t issn license !! k = Some vs -> NoDup vs).
Proof.
  unfold Licenses_Add. destruct (Add_loop license (default [] (t !! issn))) eqn:Hc.
  - apply Add_loop_elem_of in Hc. repeat split; auto.
  - assert (license ∉ default [] (t !! issn)) as Hnot.
    { intros H. apply Add_loop_elem_of in H. congruence. }
    repeat split.
    + rewrite lookup_insert_eq. simpl. apply elem_of_app. right. left.
    + rewrite lookup_insert_eq. simpl. now apply prefix_app_r.
    + intros other Hne. now apply lookup_insert_ne.
    + intros Hnd k vs. destruct (decide (k = issn)) as [-> | Hne].
      * rewrite lookup_insert_eq. intros [= <-]. apply NoDup_app.
        split; [|split].
        -- destruct (t !! issn) as [vs0|] eqn:Ht; simpl; [eauto | constructor].
        -- intros x Hx Hx'. apply list_elem_of_singleton in Hx' as ->. auto.
        -- apply NoDup_singleton.
      * rewrite lookup_insert_ne by congruence. apply Hnd.
Qed.

Lemma Licenses_Add_spec_witness :
  NoDup ["a"; "b"].
Proof.
  apply (proj2 (proj2 (proj2 (Licenses_Add_spec {[ "1234-5678" := ["a"] ]}
                                "1234-5678" "b"))))
    with (k := "1234-5678").
  - intros k vs H. apply lookup_singleton_Some in H as [_ <-].
    apply NoDup_singleton.
  - vm_compute. reflexivity.
Defined.

(** Adding a range a second time changes nothing, also when other
    ranges were added to the same ISSN in between. *)
Theorem Licenses_Add_again (t : gmap string (list string))
    (issn license : string) (between : list string) :
  let t1 := Licenses_Add t issn license in
  let t2 := fold_left (fun acc l => Licenses_Add acc issn l) between t1 in
  Licenses_Add t2 issn license = t2.
Proof.
  intros t1 t2.
  assert (license ∈ default [] (t2 !! issn)) as Hin.
  { subst t2. assert (license ∈ default [] (t1 !! issn)) as H1
      by apply Licenses_Add_stored.
    revert H1. generalize t1. clear.
    induction between as [|l ls IH]; intros t H; simpl; [assumption|].
    apply IH. now apply Licenses_Add_keeps. }
  unfold Licenses_Add at 1. apply Add_loop_elem_of in Hin. now rewrite Hin.
Qed.

(** ** [Isils] *)

Lemma Isils_range_fst (entries : list (string * gmap string Holding)) :
  Isils_range entries = map fst entries.
Proof.
  unfold Isils_range.
  assert (forall acc, fold_left (fun keys e => keys ++ [fst e]) entries acc
                      = acc ++ map fst entries) as H.
  { induction entries as [|e es IH]; intros acc; simpl.
    - now rewrite app_nil_r.
    - rewrite IH, <- app_assoc. reflexivity. }
  apply (H []).
Qed.

(** In whatever order the map is visited, [Isils] returns every ISIL of
    the map, each once, and nothing else. *)
Theorem Isils_spec (iih : gmap string (gmap string Holding))
    (entries : list (string * gmap string Holding)) :
  entries ≡ₚ map_to_list iih ->
  NoDup (Isils_range entries) /\
  (forall isil, isil ∈ Isils_range entries <-> is_Some (iih !! isil)) /\
  length (Isils_range entries) = size iih.
Proof.
  intros Hp. rewrite Isils_range_fst. split; [|split].
  - rewrite Hp. apply NoDup_fst_map_to_list.
  - intros isil. rewrite Hp, list_elem_of_fmap. split.
    + intros ([k v] & -> & H). apply elem_of_map_to_list in H. now exists v.
    + intros [v H]. exists (isil, v). split; [reflexivity|].
      now apply elem_of_map_to_list.
  - rewrite length_map, Hp. apply length_map_to_list.
Qed.

Lemma Isils_spec_witness :
  NoDup (Isils {[ "DE-15" := ∅; "DE-14" := ∅ ]}) /\
  (forall isil, isil ∈ Isils {[ "DE-15" := ∅; "DE-14" := ∅ ]} <->
                is_Some (({[ "DE-15" := ∅; "DE-14" := ∅ ]}
                            : gmap string (gmap string Holding)) !! isil)) /\
  length (Isils {[ "DE-15" := ∅; "DE-14" := ∅ ]}) =
  size ({[ "DE-15" := ∅; "DE-14" := ∅ ]} : gmap string (gmap string Holding)).
Proof.
  apply (Isils_spec {[ "DE-15" := ∅; "DE-14" := ∅ ]}
           (map_to_list {[ "DE-15" := ∅; "DE-14" := ∅ ]})).
  reflexivity.
Defined.

(** ** [ParseDelay]: success and failure *)

(** A non-empty submatch slice comes from a delay string. *)
Lemma FindStringSubmatch_some (s : string) :
  delayPattern_FindStringSubmatch s <> [] -> exists n u, delay_string s n u.
Proof.
  unfold delayPattern_FindStringSubmatch.
  destruct s as [|c rest]; [congruence|].
  destruct (Ascii.eqb_spec c "-"%char) as [-> | Hc].
  2:{ destruct c as [[] [] [] [] [] [] [] []]; congruence. }
  destruct (split_digits rest) as [ds u] eqn:Hs.
  destruct (nonempty ds && (String.eqb u "M" || String.eqb u "Y")) eqn:Hc;
    [|congruence].
  intros _. apply andb_prop in Hc as [Hne Hu].
  apply split_digits_inv in Hs as [-> Hd].
  exists (- num ds), u, ds. repeat split; trivial.
  - now apply nonempty_true.
  - apply orb_prop in Hu as [Hu | Hu]; apply String.eqb_eq in Hu; auto.
Qed.

(** [ParseDelay] succeeds exactly on the delay strings whose integer
    fits the 64-bit [int]; when it fails, the duration returned is zero
    and the error is [errUnknownFormat] or the range error of
    [strconv.Atoi] -- never a syntax error of [strconv.Atoi]. *)
Theorem ParseDelay_success_failure (s : string) :
  (snd (ParseDelay s) = None <->
     exists n u, delay_string s n u /\ MinInt64 <= n) /\
  (forall e, snd (ParseDelay s) = Some e ->
     fst (ParseDelay s) = 0 /\ (e = errUnknownFormat \/ e = errNum ErrRange)).
Proof.
  destruct (delayPattern_FindStringSubmatch s) as [|m ms] eqn:Hms;
    [pose proof Hms as Hnil
    |assert (delayPattern_FindStringSubmatch s <> []) as Hsome by congruence];
    clear Hms.
  - assert (ParseDelay s = (0, Some errUnknownFormat)) as Hp
      by (unfold ParseDelay; now rewrite Hnil).
    rewrite Hp. simpl. split.
    + split; [discriminate|]. intros (n & u & H & _).
      destruct (FindStringSubmatch_match s n u H) as (? & _ & _ & _ & Hms).
      congruence.
    + intros e [= <-]. auto.
  - destruct (FindStringSubmatch_some s Hsome) as (n & u & H).
    rewrite (ParseDelay_match s n u H).
    destruct (n <? MinInt64) eqn:Hn; simpl; split.
    + split; [discriminate|]. intros (n' & u' & H' & Hge).
      assert (n' = n); [|lia].
      destruct H as (ds & -> & _ & Hd & -> & Hu).
      destruct H' as (ds' & Heq & _ & Hd' & -> & Hu').
      injection Heq as Heq.
      assert (split_digits (ds +:+ u) = split_digits (ds' +:+ u')) as E
        by now rewrite Heq.
      rewrite !split_digits_app in E by assumption. congruence.
    + intros e [= <-]. auto.
    + split; [|reflexivity]. intros _. exists n, u. split; [assumption | lia].
    + discriminate.
Qed.

Lemma ParseDelay_success_failure_witness :
  fst (ParseDelay "3 months") = 0 /\
  (errUnknownFormat = errUnknownFormat \/ errUnknownFormat = errNum ErrRange).
Proof.
  apply (proj2 (ParseDelay_success_failure "3 months") errUnknownFormat).
  reflexivity.
Defined.

(** A delay of [n] years is the delay of [12 * n] months, as long as
    [12 * n] fits the 64-bit [int]. *)
Theorem ParseDelay_years_in_months (sy sm : string) (n : Z) :
  delay_string sy n "Y" -> delay_string sm (12 * n) "M" ->
  MinInt64 <= 12 * n ->
  ParseDelay sy = ParseDelay sm /\ snd (ParseDelay sy) = None.
Proof.
  intros Hy Hm Hfit.
  assert (n <= 0) as Hneg.
  { destruct Hy as (ds & _ & _ & Hd & -> & _).
    pose proof (num_bounds ds Hd). lia. }
  rewrite (ParseDelay_match sy n "Y" Hy), (ParseDelay_match sm (12 * n) "M" Hm).
  assert (Z.ltb n MinInt64 = false) as -> by lia.
  assert (Z.ltb (12 * n) MinInt64 = false) as -> by lia.
  split; [|reflexivity]. f_equal. f_equal.
  unfold unit_duration. simpl. unfold day, Hour. lia.
Qed.

Lemma ParseDelay_years_in_months_witness :
  ParseDelay "-2Y" = ParseDelay "-24M" /\ snd (ParseDelay "-2Y") = None.
Proof.
  apply (ParseDelay_years_in_months "-2Y" "-24M" (-2)).
  - exists "2". repeat split; auto; discriminate.
  - exists "24". repeat split; auto; discriminate.
  - unfold MinInt64. lia.
Defined.

(** ** [Boundary] *)

(** [Boundary] fails exactly when [Delay] fails, with the same error and
    the zero time; without delay strings it is the present moment; and
    with a delay of [n] units, [n] at least -3558 months or -296 years,
    it lies [|n|] units before the present moment. *)
Theorem Boundary_spec (now : Time) (e : Entitlement) :
  snd (Boundary now e) = snd (Delay e) /\
  (forall err, snd (Delay e) = Some err -> Boundary now e = (zeroTime, Some err)) /\
  (FromDelay e = "" -> ToDelay e = "" -> Boundary now e = (now, None)) /\
  (forall d n u,
     (FromDelay e = d /\ (ToDelay e = d \/ ToDelay e = "")) \/
     (FromDelay e = "" /\ ToDelay e = d) ->
     delay_string d n u ->
     (if String.eqb u "Y" then -296 else -3558) <= n ->
     Boundary now e = (now + n * unit_duration u, None) /\
     now + n * unit_duration u <= now).
Proof.
  unfold Boundary. split; [|split; [|split]].
  - destruct (Delay e) as [d [err|]]; reflexivity.
  - intros err. destruct (Delay e) as [d [err'|]]; simpl; congruence.
  - intros HF HT. unfold Delay. rewrite HF, HT. simpl. f_equal. lia.
  - intros d n u Hd Hs Hn.
    assert (d <> "") as Hne by (destruct Hs as (ds & -> & _); discriminate).
    assert (n <= 0) as Hneg.
    { destruct Hs as (ds & _ & _ & Hdg & -> & _).
      pose proof (num_bounds ds Hdg). lia. }
    assert (Delay e = ParseDelay d) as ->.
    { unfold Delay.
      destruct Hd as [[HF [HT | HT]] | [HF HT]]; rewrite HF, HT.
      - apply nonempty_true in Hne. rewrite Hne, String.eqb_refl. reflexivity.
      - apply nonempty_true in Hne. rewrite Hne. simpl. reflexivity.
      - apply nonempty_true in Hne. rewrite Hne. reflexivity. }
    rewrite (ParseDelay_match d n u Hs).
    assert (Z.ltb n MinInt64 = false) as ->.
    { unfold MinInt64. destruct (String.eqb u "Y"); lia. }
    rewrite wrap64_exact.
    + split; [reflexivity|].
      unfold unit_duration, day, Hour. destruct (String.eqb u "Y"); lia.
    + unfold unit_duration, MinInt64, MaxInt64, day, Hour.
      destruct (String.eqb u "Y"); lia.
Qed.

Lemma Boundary_spec_witness :
  Boundary 1000 (entitlement_with_delays "-1Y" "-2Y") = (zeroTime, Some errDelayMismatch) /\
  Boundary 1000 (entitlement_with_delays "" "") = (1000, None) /\
  Boundary 1000 (entitlement_with_delays "" "-3M") =
    (1000 + -3 * unit_duration "M", None) /\
  1000 + -3 * unit_duration "M" <= 1000.
Proof.
  split; [|split].
  - apply (proj1 (proj2 (Boundary_spec 1000 (entitlement_with_delays "-1Y" "-2Y")))).
    reflexivity.
  - apply (proj1 (proj2 (proj2 (Boundary_spec 1000 (entitlement_with_delays "" "")))));
      reflexivity.
  - apply (proj2 (proj2 (proj2 (Boundary_spec 1000 (entitlement_with_delays "" "-3M"))))
             "-3M" (-3) "M").
    + right. split; reflexivity.
    + exists "3". repeat split; auto; discriminate.
    + simpl. lia.
Defined.

(** ** The datum and its sentinels *)

(** The datum of numeric components of at most 4, 6 and 6 digits is a
    string of exactly 16 decimal digits; in the bytewise order it is not
    below [LowDatum] and strictly below [HighDatum]. *)
Theorem CombineDatum_between_sentinels (year volume issue : string) :
  numeric 4 year -> numeric 6 volume -> numeric 6 issue ->
  let d := CombineDatum year volume issue "" in
  String.length d = 16%nat /\ all_digits d = true /\
  String.leb LowDatum d = true /\ str_lt d HighDatum = true.
Proof.
  intros Hy Hv Hi d.
  destruct (datum_value year volume issue Hy Hv Hi) as (Dd & Ld & Nd & B).
  fold d in Dd, Ld, Nd. repeat split; trivial.
  - unfold String.leb.
    rewrite (compare_digits LowDatum d)
      by first [reflexivity | assumption | now rewrite Ld].
    change (num LowDatum) with 0.
    destruct (Z.compare_spec 0 (num d)); try reflexivity. lia.
  - destruct d as [|c d']; [discriminate|].
    simpl in Dd. apply andb_prop in Dd as [Hc _].
    unfold str_lt, String.ltb, HighDatum. cbn [String.compare].
    unfold Ascii.compare. unfold is_digit, byte_val in Hc.
    assert (N_of_ascii c < N_of_ascii "Z")%N as Hlt.
    { change (N_of_ascii "Z") with 90%N. lia. }
    apply N.compare_lt_iff in Hlt. rewrite Hlt. reflexivity.
Qed.

Lemma CombineDatum_between_sentinels_witness :
  let d := CombineDatum "2010" "10" "5" "" in
  String.length d = 16%nat /\ all_digits d = true /\
  String.leb LowDatum d = true /\ str_lt d HighDatum = true.
Proof.
  apply (CombineDatum_between_sentinels "2010" "10" "5");
    split; simpl; first [reflexivity | lia].
Defined.

(** Two triples of numeric components of at most 4, 6 and 6 digits have
    the same datum exactly when they denote the same numbers: leading
    zeros and empty components make no difference. *)
Theorem CombineDatum_same_datum (y1 v1 i1 y2 v2 i2 : string) :
  numeric 4 y1 -> numeric 6 v1 -> numeric 6 i1 ->
  numeric 4 y2 -> numeric 6 v2 -> numeric 6 i2 ->
  (CombineDatum y1 v1 i1 "" = CombineDatum y2 v2 i2 "" <->
   num y1 = num y2 /\ num v1 = num v2 /\ num i1 = num i2).
Proof.
  intros Hy1 Hv1 Hi1 Hy2 Hv2 Hi2.
  destruct (datum_value y1 v1 i1 Hy1 Hv1 Hi1) as (D1 & L1 & N1 & B1).
  destruct (datum_value y2 v2 i2 Hy2 Hv2 Hi2) as (D2 & L2 & N2 & B2).
  split.
  - intros E. rewrite E in N1. lia.
  - intros (Ey & Ev & Ei). apply String.compare_eq_iff.
    rewrite (compare_digits _ _ D1 D2) by congruence.
    apply Z.compare_eq_iff. lia.
Qed.

Lemma CombineDatum_same_datum_witness :
  CombineDatum "2010" "07" "" "" = CombineDatum "2010" "7" "0" "" <->
  num "2010" = num "2010" /\ num "07" = num "7" /\ num "" = num "0".
Proof.
  apply (CombineDatum_same_datum "2010" "07" "" "2010" "7" "0");
    split; simpl; first [reflexivity | lia].
Defined.

(** ** [HoldingsMap] on a document in two parts *)

Lemma holdings_of_app (d1 d2 : Decoder) :
  holdings_of (d1 ++ d2) = holdings_of d1 ++ holdings_of d2.
Proof.
  induction d1 as [|[t item] d1 IH]; [reflexivity|].
  destruct t; simpl; try exact IH.
  destruct (String.eqb Local "holding"); simpl; [now rewrite IH | exact IH].
Qed.

Lemma last_lister_app (k : string) (hs1 hs2 : list Holding) :
  last_lister k (hs1 ++ hs2) =
  match last_lister k hs2 with
  | Some item => Some item
  | None => last_lister k hs1
  end.
Proof.
  induction hs1 as [|h hs1 IH]; simpl.
  - destruct (last_lister k hs2); reflexivity.
  - rewrite IH. destruct (last_lister k hs2); reflexivity.
Qed.

Lemma HoldingsMap_lookup (decoder : Decoder) (k : string) :
  HoldingsMap decoder !! k = last_lister k (holdings_of decoder).
Proof.
  unfold HoldingsMap. rewrite HoldingsMap_loop_lookup, lookup_empty.
  destruct (last_lister k (holdings_of decoder)); reflexivity.
Qed.

(** The index of a document read in two parts is the index of the
    second part completed by that of the first: where both bind an
    ISSN, the holding of the later part stands. *)
Theorem HoldingsMap_app (d1 d2 : Decoder) :
  HoldingsMap (d1 ++ d2) = HoldingsMap d2 ∪ HoldingsMap d1.
Proof.
  apply map_eq. intros k.
  rewrite lookup_union, !HoldingsMap_lookup, holdings_of_app, last_lister_app.
  destruct (last_lister k (holdings_of d2)), (last_lister k (holdings_of d1));
    reflexivity.
Qed.

End HoldingsMore.

(* ===================================================================== *)
(** * Further properties of package span *)
(* ===================================================================== *)

Module SpanMore.
Import Span SpanSpec SpanFacts Main MainSpec MainFacts.

(** ** The list filter *)

Lemma elem_of_fold_add_line (ls : list string) (x : string) :
  forall set : StringSet,
    x ∈ fold_left add_line ls set <->
    x ∈ set \/ exists l, l ∈ ls /\ TrimSpace l = x /\ x <> "".
Proof.
  induction ls as [|l ls IH]; intros set; simpl.
  - split; [auto|]. intros [H | (l & Hl & _)]; [assumption | inversion Hl].
  - rewrite IH. unfold add_line.
    destruct (String.eqb_spec (TrimSpace l) "") as [He | Hne].
    + split.
      * intros [H | (l' & Hl & H)]; auto. right. exists l'. split; [now right | assumption].
      * intros [H | (l' & Hl & Ht & Hx)]; auto.
        apply elem_of_cons in Hl as [-> | Hl]; [congruence|]. right. eauto.
    + unfold Add. rewrite elem_of_union, elem_of_singleton. split.
      * intros [[-> | H] | (l' & Hl & H)]; auto.
        -- right. exists l. split; [left | auto].
        -- right. exists l'. split; [now right | assumption].
      * intros [H | (l' & Hl & Ht & Hx)]; auto.
        apply elem_of_cons in Hl as [-> | Hl]; [auto|]. right. eauto.
Qed.

Lemma NewListFilter_elem_of (r : string) :
  exists set,
    NewListFilter r = Some set /\
    forall x, x ∈ set <-> exists l, l ∈ lines r /\ TrimSpace l = x /\ x <> "".
Proof.
  eexists. split; [apply NewListFilter_total|].
  intros x. rewrite elem_of_fold_add_line. unfold NewStringSet.
  split; [|auto]. intros [H | H]; [|assumption].
  now apply not_elem_of_empty in H.
Qed.

(** [NewListFilter] always returns a set, and a string belongs to it
    exactly when it is not empty and is the trimmed content of some
    newline-terminated line of the input: blank lines add nothing, the
    empty string is never an entry, and repeated lines count once. *)
Theorem NewListFilter_members (r : string) :
  exists set,
    NewListFilter r = Some set /\
    (forall x, x ∈ set <-> exists l, l ∈ lines r /\ TrimSpace l = x /\ x <> "") /\
    "" ∉ set.
Proof.
  destruct (NewListFilter_elem_of r) as (set & Hs & H).
  exists set. split; [assumption|].
  split; [exact H|]. intros Hin. apply H in Hin as (_ & _ & _ & Hne). congruence.
Qed.

Lemma NewListFilter_members_witness :
  exists set,
    NewListFilter (line " 1234-5678 " +:+ line "" +:+ "8765-4321") = Some set /\
    (forall x, x ∈ set <->
       exists l, l ∈ lines (line " 1234-5678 " +:+ line "" +:+ "8765-4321") /\
                 TrimSpace l = x /\ x <> "") /\
    "" ∉ set.
Proof.
  apply (NewListFilter_members (line " 1234-5678 " +:+ line "" +:+ "8765-4321")).
Defined.

Section FilterMore.

Variable License : Type.
Variable Covers : License -> string -> bool.
Variable Wall : License -> Time -> Time.

Local Abbreviation Filter := (Filter License).
Local Abbreviation Apply := (Apply License Covers Wall).
Local Abbreviation Tags := (Tags License Covers Wall).
Local Abbreviation Tags_range := (Tags_range License Covers Wall).
Local Abbreviation covering_released := (covering_released License Covers Wall).
Local Abbreviation accepted := (accepted License Covers Wall).

(** A record passes the filter loaded from a list exactly when one of
    its ISSN or e-ISSN values is the trimmed, non-empty content of a
    newline-terminated line of that list. *)
Theorem ListFilter_of_list (r : string) (is_ : IntermediateSchema) :
  exists set,
    NewListFilter r = Some set /\
    (Apply (ListFilter License set) is_ = true <->
     exists issn l, issn ∈ ISSN is_ ++ EISSN is_ /\ l ∈ lines r /\
                    TrimSpace l = issn /\ issn <> "").
Proof.
  destruct (NewListFilter_elem_of r) as (set & Hs & Hm).
  exists set. split; [assumption|].
  cbn [Span.Apply]. unfold ListFilter_Apply.
  rewrite any_issn_existsb, existsb_exists. unfold Contains. split.
  - intros (issn & Hin & Hc). apply bool_decide_eq_true in Hc.
    apply Hm in Hc as (l & Hl & Ht & Hne).
    exists issn, l. rewrite list_elem_of_In. auto.
  - intros (issn & l & Hin & Hl & Ht & Hne). exists issn.
    rewrite <- list_elem_of_In. split; [assumption|].
    apply bool_decide_eq_true. apply Hm. eauto.
Qed.

(** [HoldingFilter.Apply] accepts a record exactly when one of its ISSN
    or e-ISSN values has, in the table, a license that covers the
    record's signature and whose wall lies before the reference time;
    the order of the identifiers and of the licenses plays no part. *)
Theorem HoldingFilter_Apply_exact (Ref : Time)
    (Table : gmap string (list License)) (is_ : IntermediateSchema) :
  Apply (HoldingFilter License Ref Table) is_ = true <->
  exists issn licenses license,
    (issn ∈ ISSN is_ \/ issn ∈ EISSN is_) /\
    Table !! issn = Some licenses /\ license ∈ licenses /\
    Covers license (signature_of is_) = true /\
    After Ref (Wall license Ref) = true.
Proof.
  rewrite HoldingFilter_Apply_true. unfold SpanSpec.covering_released.
  split; intros (issn & ls & l & Hin & Ht & Hl & Hc); exists issn, ls, l.
  - apply elem_of_app in Hin. apply andb_prop in Hc. tauto.
  - rewrite elem_of_app. destruct Hc as [-> ->]. tauto.
Qed.

(** ** The tagger *)

(** The order of the filters of an institution does not matter. *)
Theorem Tags_filter_order (t : gmap string (list Filter)) (isil : string)
    (filters filters' : list Filter) (is_ : IntermediateSchema) :
  filters ≡ₚ filters' ->
  Tags (<[isil := filters]> t) is_ = Tags (<[isil := filters']> t) is_.
Proof.
  intros Hp. unfold Span.Tags, Values. f_equal. apply set_eq. intros x.
  rewrite !elem_of_Tags_range.
  assert (forall fs fs' : list Filter, fs ≡ₚ fs' ->
          (exists f0, (x, f0) ∈ map_to_list (<[isil := fs]> t) /\ accepted is_ f0) ->
          exists f0, (x, f0) ∈ map_to_list (<[isil := fs']> t) /\ accepted is_ f0) as H.
  { intros fs fs' Hperm (f0 & Hin & Ha). apply elem_of_map_to_list in Hin.
    destruct (decide (x = isil)) as [-> | Hne].
    - rewrite lookup_insert_eq in Hin. injection Hin as <-.
      exists fs'. split; [apply elem_of_map_to_list, lookup_insert_eq|].
      destruct Ha as (f & Hf & Hf'). exists f. split; [|assumption].
      now rewrite <- Hperm.
    - rewrite lookup_insert_ne in Hin by congruence.
      exists f0. split; [|assumption]. apply elem_of_map_to_list.
      now rewrite lookup_insert_ne by congruence. }
  split; apply H; [assumption | now symmetry].
Qed.

(** [Tags] returns configured institutions only, and so never more tags
    than there are institutions. *)
Theorem Tags_within_institutions (t : gmap string (list Filter))
    (is_ : IntermediateSchema) :
  (forall isil, isil ∈ Tags t is_ -> is_Some (t !! isil)) /\
  (length (Tags t is_) <= size t)%nat.
Proof.
  assert (Tags_range is_ (map_to_list t) ⊆ dom t) as Hsub.
  { intros x Hx. apply elem_of_Tags_range in Hx as (fs & Hin & _).
    apply elem_of_map_to_list in Hin. apply elem_of_dom. eauto. }
  split.
  - intros isil Hin. unfold Span.Tags, Values in Hin.
    apply elem_of_elements in Hin. apply Hsub in Hin. now apply elem_of_dom.
  - unfold Span.Tags, Values. apply subseteq_size in Hsub.
    rewrite size_dom in Hsub. exact Hsub.
Qed.

(** An institution with an [Any] filter is attached to every record;
    an institution all of whose filters are source filters is attached
    to a record exactly when the record's source is one of theirs. *)
Theorem Tags_Any_and_SourceFilter (t : gmap string (list Filter))
    (isil : string) (filters : list Filter) (is_ : IntermediateSchema) :
  t !! isil = Some filters ->
  (Any License ∈ filters -> isil ∈ Tags t is_) /\
  (Forall (fun f => exists id, f = SourceFilter License id) filters ->
   (isil ∈ Tags t is_ <-> SourceFilter License (SourceID is_) ∈ filters)).
Proof.
  intros Ht.
  assert (isil ∈ Tags t is_ <-> accepted is_ filters) as Hmem.
  { unfold Span.Tags, Values. rewrite elem_of_elements, elem_of_Tags_range.
    split.
    - intros (fs & Hin & Ha). apply elem_of_map_to_list in Hin. congruence.
    - intros Ha. exists filters. split; [now apply elem_of_map_to_list | assumption]. }
  split.
  - intros Hany. apply Hmem. exists (Any License). split; [assumption | reflexivity].
  - intros Hall. rewrite Hmem. rewrite Forall_forall in Hall. split.
    + intros (f & Hf & Ha). destruct (Hall f Hf) as [id ->].
      simpl in Ha. apply String.eqb_eq in Ha. now rewrite Ha.
    + intros Hin. exists (SourceFilter License (SourceID is_)).
      split; [assumption|]. simpl. apply String.eqb_refl.
Qed.

End FilterMore.

Lemma ListFilter_of_list_witness :
  exists set,
    NewListFilter (line "1234-5678") = Some set /\
    (Apply range_license range_Covers range_Wall (ListFilter range_license set)
       record_2010 = true <->
     exists issn l, issn ∈ ISSN record_2010 ++ EISSN record_2010 /\
                    l ∈ lines (line "1234-5678") /\
                    TrimSpace l = issn /\ issn <> "").
Proof.
  apply (ListFilter_of_list range_license range_Covers range_Wall
           (line "1234-5678") record_2010).
Defined.

Lemma HoldingFilter_Apply_exact_witness :
  Apply range_license range_Covers range_Wall
    (HoldingFilter range_license 100 table_2000_2020) record_2010 = true.
Proof.
  apply (proj2 (HoldingFilter_Apply_exact range_license range_Covers range_Wall
                  100 table_2000_2020 record_2010)).
  exists "1234-5678",
         [ {| low := "2000000001000001"; high := "2020000050000012"; delay := -1 |} ],
         {| low := "2000000001000001"; high := "2020000050000012"; delay := -1 |}.
  repeat split.
  - left. left.
  - left.
Defined.

Lemma Tags_filter_order_witness :
  Tags range_license range_Covers range_Wall
    (<[ "ISIL-2" := [ SourceFilter range_license "49"; Any range_license ] ]> sample_tagger)
    record_2010 =
  Tags range_license range_Covers range_Wall
    (<[ "ISIL-2" := [ Any range_license; SourceFilter range_license "49" ] ]> sample_tagger)
    record_2010.
Proof.
  apply (Tags_filter_order range_license range_Covers range_Wall sample_tagger "ISIL-2").
  apply perm_swap.
Defined.

Lemma Tags_within_institutions_witness :
  is_Some (sample_tagger !! "ISIL-1").
Proof.
  apply (proj1 (Tags_within_institutions range_license range_Covers range_Wall
                  sample_tagger record_2010) "ISIL-1").
  vm_compute. left.
Defined.

Lemma Tags_Any_and_SourceFilter_witness :
  "ISIL-2" ∈ Tags range_license range_Covers range_Wall
    (<[ "ISIL-2" := [ SourceFilter range_license "48"; Any range_license ] ]> sample_tagger)
    record_2010.
Proof.
  destruct (Tags_Any_and_SourceFilter range_license range_Covers range_Wall
              (<[ "ISIL-2" := [ SourceFilter range_license "48"; Any range_license ] ]>
                 sample_tagger)
              "ISIL-2" [ SourceFilter range_license "48"; Any range_license ]
              record_2010) as [H _].
  - vm_compute. reflexivity.
  - apply H. right. left.
Defined.

End SpanMore.

(* ===================================================================== *)
(** * Further properties of the batch pipeline *)
(* ===================================================================== *)

Module MainMore.
Import Main MainSpec MainFacts.

(** ** The collector's output, read back *)

Lemma append_nil_r (a : string) : a +:+ "" = a.
Proof. induction a as [|c a IH]; [reflexivity|]. now rewrite append_cons, IH. Qed.

Lemma newline_free_app (a b : string) :
  newline_free (a +:+ b) = newline_free a && newline_free b.
Proof.
  induction a as [|c a IH]; [reflexivity|].
  rewrite append_cons. simpl. rewrite IH. now rewrite andb_assoc.
Qed.

Lemma lines_from_terminated (d : string) : forall cur rest,
  newline_free d = true ->
  lines_from cur (d +:+ String newline rest) =
  (cur +:+ d +:+ String newline "") :: lines_from "" rest.
Proof.
  induction d as [|c d IH]; intros cur rest Hd.
  - reflexivity.
  - simpl in Hd. apply andb_prop in Hd as [Hc Hd]. apply negb_true_iff in Hc.
    rewrite append_cons. simpl. rewrite Hc, (IH _ _ Hd).
    rewrite append_assoc. reflexivity.
Qed.

(** Documents without a newline inside -- as [json.Marshal] produces
    them -- come back from the collector's output one per line, in the
    order written, and the output has no unterminated tail. *)
Theorem ByteSliceCollector_lines (docs : list string) :
  Forall (fun b => newline_free b = true) docs ->
  lines (ByteSliceCollector docs) = map line docs /\
  join (lines (ByteSliceCollector docs)) = ByteSliceCollector docs.
Proof.
  intros Hall.
  assert (lines (ByteSliceCollector docs) = map line docs) as Hl.
  { unfold lines. induction Hall as [|b docs Hb _ IH]; [reflexivity|].
    simpl. rewrite (lines_from_terminated b "" _ Hb), IH. reflexivity. }
  split; [exact Hl|]. rewrite Hl. clear.
  induction docs as [|b docs IH]; [reflexivity|].
  simpl. rewrite IH. unfold line. rewrite append_assoc. reflexivity.
Qed.

Lemma ByteSliceCollector_lines_witness :
  lines (ByteSliceCollector ["{}"; "[1]"]) = map line ["{}"; "[1]"] /\
  join (lines (ByteSliceCollector ["{}"; "[1]"])) = ByteSliceCollector ["{}"; "[1]"].
Proof.
  apply (ByteSliceCollector_lines ["{}"; "[1]"]).
  repeat constructor.
Defined.

(** ** What the reader keeps and what it drops *)

Lemma lines_from_join (r : string) : forall cur,
  newline_free cur = true ->
  exists tail, newline_free tail = true /\
               cur +:+ r = join (lines_from cur r) +:+ tail.
Proof.
  induction r as [|c r IH]; intros cur Hcur.
  - exists cur. split; [assumption|]. now rewrite append_nil_r.
  - simpl. destruct (Ascii.eqb c newline) eqn:Hc.
    + destruct (IH "" eq_refl) as (tail & Ht & E). exists tail.
      split; [assumption|]. simpl. change ("" +:+ r) with r in E.
      rewrite !append_assoc, <- E. reflexivity.
    + destruct (IH (cur +:+ String c "")) as (tail & Ht & E).
      { rewrite newline_free_app, Hcur. simpl. now rewrite Hc. }
      exists tail. split; [assumption|]. rewrite <- E, append_assoc. reflexivity.
Qed.


(** ** The sizes of the batches *)

(** As long as the counter does not meet the batch size, nothing is
    handed off before the end of the input. *)
Lemma reader_steps_no_handoff (BatchSize : Z) (ls : list string) :
  forall i batch batches,
    MinInt64 <= i -> i + Z.of_nat (length ls) <= MaxInt64 ->
    BatchSize < i \/ i + Z.of_nat (length ls) <= BatchSize ->
    reader_steps BatchSize ls i batch batches = batches ++ [batch ++ ls].
Proof.
  induction ls as [|l ls IH]; intros i batch batches Hlo Hhi Hb.
  - simpl. now rewrite app_nil_r.
  - cbn [reader_steps length] in *.
    assert (Z.eqb i BatchSize = false) as -> by lia.
    rewrite HoldingsFacts.wrap64_exact by (unfold MinInt64, MaxInt64 in *; lia).
    rewrite IH by (unfold MinInt64 in *; lia).
    rewrite <- app_assoc. reflexivity.
Qed.

(** With a batch size of 0, or one greater than the number of lines,
    the reader hands off a single batch at the end of the input: the
    initial empty strings followed by all the lines. *)
Theorem reader_single_batch (BatchSize : Z) (content : string) :
  BatchSize = 0 \/ Z.of_nat (length (lines content)) < BatchSize ->
  Z.of_nat (length (lines content)) < MaxInt64 ->
  reader BatchSize content = Some [make BatchSize ++ lines content].
Proof.
  intros Hb Hn. rewrite reader_total. f_equal.
  apply (reader_steps_no_handoff BatchSize (lines content) 1 (make BatchSize) []).
  - unfold MinInt64. lia.
  - lia.
  - lia.
Qed.

Lemma reader_single_batch_witness :
  reader 5 (line "a" +:+ line "b") = Some [make 5 ++ lines (line "a" +:+ line "b")] /\
  reader 0 (line "a" +:+ line "b") = Some [make 0 ++ lines (line "a" +:+ line "b")].
Proof.
  split.
  - apply (reader_single_batch 5 (line "a" +:+ line "b")).
    + right. vm_compute. reflexivity.
    + vm_compute. reflexivity.
  - apply (reader_single_batch 0 (line "a" +:+ line "b")).
    + left. reflexivity.
    + vm_compute. reflexivity.
Defined.

(** The first hand-off: the counter reaches the batch size after
    [S k] more lines. *)
Lemma reader_steps_first (BatchSize : Z) (k : nat) :
  forall ls i batch batches,
    i = BatchSize - Z.of_nat k -> MinInt64 <= i -> BatchSize <= MaxInt64 ->
    (S k <= length ls)%nat ->
    reader_steps BatchSize ls i batch batches =
    reader_steps BatchSize (drop (S k) ls) 2 []
                 (batches ++ [batch ++ take (S k) ls]).
Proof.
  induction k as [|k IH]; intros ls i batch batches Hi Hlo Hhi Hlen;
    destruct ls as [|l ls]; simpl in Hlen; try lia.
  - cbn [reader_steps]. assert (Z.eqb i BatchSize = true) as -> by lia.
    reflexivity.
  - cbn [reader_steps]. assert (Z.eqb i BatchSize = false) as -> by lia.
    rewrite HoldingsFacts.wrap64_exact by (unfold MinInt64, MaxInt64 in *; lia).
    rewrite (IH ls (i + 1) (batch ++ [l]) batches) by (unfold MinInt64 in *; lia).
    cbn [firstn skipn]. rewrite <- app_assoc. reflexivity.
Qed.

(** After the first hand-off: with [pending] lines in the batch the
    counter is [pending + 2], so a batch goes out every
    [BatchSize - 1] lines. *)
Lemma reader_steps_later (n : nat) (ls : list string) :
  (2 <= n)%nat -> Z.of_nat n <= MaxInt64 ->
  forall i batch batches,
    i = 2 + Z.of_nat (length batch) -> (length batch <= n - 2)%nat ->
    exists middle final,
      reader_steps (Z.of_nat n) ls i batch batches = batches ++ middle ++ [final] /\
      Forall (fun b => length b = (n - 1)%nat) middle /\
      (length final <= n - 2)%nat /\
      concat (middle ++ [final]) = batch ++ ls.
Proof.
  intros Hn Hmax. induction ls as [|l ls IH]; intros i batch batches Hi Hlen.
  - exists [], batch. simpl. rewrite app_nil_r. repeat split; auto.
  - cbn [reader_steps]. destruct (i =? Z.of_nat n) eqn:Hin.
    + destruct (IH (wrap64 (1 + 1)) [] (batches ++ [batch ++ [l]]))
        as (middle & final & E & Hm & Hf & Hc); [reflexivity | simpl; lia |].
      exists ((batch ++ [l]) :: middle), final. repeat split.
      * rewrite E, <- !app_assoc. reflexivity.
      * constructor; [|assumption]. rewrite length_app. simpl. lia.
      * assumption.
      * simpl in *. rewrite Hc, <- app_assoc. reflexivity.
    + destruct (IH (wrap64 (i + 1)) (batch ++ [l]) batches)
        as (middle & final & E & Hm & Hf & Hc).
      * rewrite HoldingsFacts.wrap64_exact by (unfold MinInt64, MaxInt64 in *; lia).
        rewrite length_app. simpl. lia.
      * rewrite length_app. simpl. lia.
      * exists middle, final. repeat split; trivial.
        rewrite Hc, <- app_assoc. reflexivity.
Qed.

(** With a batch size [n] of at least 2 and at least [n] lines, the
    first batch holds [2 * n] entries -- the [n] initial empty strings
    and the first [n] lines --, every batch between the first and the
    last holds [n - 1] lines, and the last one fewer than that; together
    the later batches hold the remaining lines in order. *)
Theorem reader_batch_sizes (n : nat) (content : string) :
  (2 <= n)%nat -> Z.of_nat n <= MaxInt64 ->
  (n <= length (lines content))%nat ->
  exists first middle final,
    reader (Z.of_nat n) content = Some (first :: middle ++ [final]) /\
    first = repeat "" n ++ take n (lines content) /\
    length first = (2 * n)%nat /\
    Forall (fun b => length b = (n - 1)%nat) middle /\
    (length final <= n - 2)%nat /\
    concat (middle ++ [final]) = drop n (lines content).
Proof.
  intros Hn Hmax Hlen. rewrite reader_total.
  destruct n as [|k]; [lia|].
  rewrite (reader_steps_first (Z.of_nat (S k)) k (lines content) 1
             (make (Z.of_nat (S k))) [])
    by (unfold MinInt64; lia).
  destruct (reader_steps_later (S k) (drop (S k) (lines content)) Hn Hmax 2 []
              ([] ++ [make (Z.of_nat (S k)) ++ take (S k) (lines content)]))
    as (middle & final & E & Hm & Hf & Hc); [reflexivity | simpl; lia |].
  exists (make (Z.of_nat (S k)) ++ take (S k) (lines content)), middle, final.
  unfold make in *. rewrite Nat2Z.id in *. repeat split; trivial.
  - rewrite E. reflexivity.
  - rewrite length_app, repeat_length, length_take. lia.
Qed.

Lemma reader_batch_sizes_witness :
  exists first middle final,
    reader (Z.of_nat 3)
      (line "a" +:+ line "b" +:+ line "c" +:+ line "d" +:+ line "e" +:+ line "f")
    = Some (first :: middle ++ [final]) /\
    first = repeat "" 3 ++ take 3 (lines
      (line "a" +:+ line "b" +:+ line "c" +:+ line "d" +:+ line "e" +:+ line "f")) /\
    length first = (2 * 3)%nat /\
    Forall (fun b => length b = (3 - 1)%nat) middle /\
    (length final <= 3 - 2)%nat /\
    concat (middle ++ [final]) = drop 3 (lines
      (line "a" +:+ line "b" +:+ line "c" +:+ line "d" +:+ line "e" +:+ line "f")).
Proof.
  apply (reader_batch_sizes 3
    (line "a" +:+ line "b" +:+ line "c" +:+ line "d" +:+ line "e" +:+ line "f")).
  - lia.
  - vm_compute. discriminate.
  - vm_compute. lia.
Defined.

(** With a batch size of 1 the first line is handed off with the one
    initial empty string; all lines after it stay in the batch until
    the end of the input. *)
Theorem reader_batch_size_one (content l : string) (rest : list string) :
  lines content = l :: rest ->
  Z.of_nat (length rest) + 2 <= MaxInt64 ->
  reader 1 content = Some [ [""; l]; rest ].
Proof.
  intros Hl Hn. rewrite reader_total, Hl.
  rewrite (reader_steps_first 1 0 (l :: rest) 1 (make 1) [])
    by (unfold MinInt64, MaxInt64; simpl; lia).
  change (drop 1 (l :: rest)) with rest. change (take 1 (l :: rest)) with [l].
  rewrite reader_steps_no_handoff by (unfold MinInt64; lia).
  reflexivity.
Qed.

Lemma reader_batch_size_one_witness :
  reader 1 (line "a" +:+ line "b" +:+ line "c") = Some [ [""; line "a"]; [line "b"; line "c"] ].
Proof.
  apply (reader_batch_size_one (line "a" +:+ line "b" +:+ line "c")).
  - vm_compute. reflexivity.
  - vm_compute. discriminate.
Defined.

(** ** The documents written *)

Section WorkerMore.

Variable Document : Type.
Variable Schema : Type.
Variable Unmarshal : string -> Document.
Variable ToSolrSchema : Document -> Schema * bool.
Variable Institutions :
  Document -> gmap string (gmap string Holdings.Holding) -> list string.
Variable SetTags : Schema -> list string -> Schema.
Variable Marshal : Schema -> string.

Local Abbreviation worker_line :=
  (worker_line Document Schema Unmarshal ToSolrSchema Institutions SetTags Marshal).
Local Abbreviation worker_batch :=
  (worker_batch Document Schema Unmarshal ToSolrSchema Institutions SetTags Marshal).
Local Abbreviation sequential :=
  (sequential Document Schema Unmarshal ToSolrSchema Institutions SetTags Marshal).
Local Abbreviation BatchedLDJProcessor :=
  (BatchedLDJProcessor Document Schema Unmarshal ToSolrSchema Institutions SetTags Marshal).
Local Abbreviation BatchedLDJProcessor_writes :=
  (BatchedLDJProcessor_writes Document Schema Unmarshal ToSolrSchema Institutions SetTags Marshal).

Lemma worker_batch_length (options : Options) (ls : list string) :
  (length (worker_batch options ls) <= length ls)%nat /\
  (IgnoreErrors options = false -> length (worker_batch options ls) = length ls).
Proof.
  unfold Main.worker_batch. induction ls as [|l ls [IH1 IH2]]; simpl; [auto|].
  rewrite length_app. unfold Main.worker_line at 1 3.
  destruct (ToSolrSchema (Unmarshal l)) as [schema err].
  destruct (err && IgnoreErrors options) eqn:E; simpl.
  - split; [lia|]. intros Hi. rewrite Hi, andb_false_r in E. discriminate.
  - split; [lia|]. intros Hi. now rewrite (IH2 Hi).
Qed.




End WorkerMore.




End MainMore.
